(** * scrcpy_gui: option extraction from the manpage and command assembly

    Shallow embedding of [src/gui/scrcpy_gui.py].

    Python [str] values are sequences of Unicode code points; they are
    modelled as lists of code points ([N]).  The string methods and the two
    regular expressions used by [parse_options] are embedded as functions
    over such lists.  Exceptions are modelled by an [outcome] type, the
    file system and the standard error stream by an explicit [world]. *)

From Stdlib Require Import Ascii String.
From Stdlib Require Import List NArith ZArith Bool Lia.
Import ListNotations.

Local Open Scope N_scope.
Local Open Scope list_scope.

(** ** Python strings *)

Definition char := N.
Definition str := list char.

(** ASCII literals, for readable examples. *)
Definition lit (s : string) : str :=
  map N_of_ascii (list_ascii_of_string s).

Definition dq : char := 34.        (* the double quote *)
Definition comma : char := 44.
Definition hyphen : char := 45.
Definition dot : char := 46.
Definition backslash : char := 92.
Definition newline : char := 10.

Fixpoint str_eqb (a b : str) : bool :=
  match a, b with
  | [], [] => true
  | x :: a', y :: b' => (x =? y) && str_eqb a' b'
  | _, _ => false
  end.

Module Py.

(** [Py_UNICODE_ISSPACE]: the characters [str.strip()], [str.split()] and
    the pattern [\s] treat as whitespace. *)
Definition isspace (c : char) : bool :=
  ((9 <=? c) && (c <=? 13)) || ((28 <=? c) && (c <=? 32))
  || (c =? 0x85) || (c =? 0xA0) || (c =? 0x1680)
  || ((0x2000 <=? c) && (c <=? 0x200A))
  || (c =? 0x2028) || (c =? 0x2029) || (c =? 0x202F)
  || (c =? 0x205F) || (c =? 0x3000).

(** [Py_UNICODE_ISLINEBREAK]: the line boundaries of [str.splitlines()]. *)
Definition islinebreak (c : char) : bool :=
  ((10 <=? c) && (c <=? 13)) || ((28 <=? c) && (c <=? 30))
  || (c =? 0x85) || (c =? 0x2028) || (c =? 0x2029).

(** [str.splitlines()], [line] being the current line, reversed.  A
    carriage return followed by a line feed is one boundary; no empty
    last line is produced. *)
Fixpoint splitlines_from (line : str) (s : str) : list str :=
  match s with
  | [] => match line with [] => [] | _ => [rev line] end
  | c :: r =>
      if islinebreak c then
        rev line ::
          match r with
          | c' :: r' =>
              if (c =? 13) && (c' =? 10) then splitlines_from [] r'
              else splitlines_from [] r
          | [] => splitlines_from [] r
          end
      else splitlines_from (c :: line) r
  end.

Definition splitlines (s : str) : list str := splitlines_from [] s.

(** Removal of the leading characters satisfying [p]. *)
Fixpoint lstrip_by (p : char -> bool) (s : str) : str :=
  match s with
  | [] => []
  | c :: r => if p c then lstrip_by p r else s
  end.

Definition rstrip_by (p : char -> bool) (s : str) : str :=
  rev (lstrip_by p (rev s)).

Definition strip_by (p : char -> bool) (s : str) : str :=
  rstrip_by p (lstrip_by p s).

(** [s.strip()] *)
Definition strip (s : str) : str := strip_by isspace s.

(** [s.strip(chars)] *)
Definition strip_chars (chars : str) (s : str) : str :=
  strip_by (fun c => existsb (N.eqb c) chars) s.

(** [s.startswith(prefix)] *)
Fixpoint startswith (prefix s : str) : bool :=
  match prefix, s with
  | [], _ => true
  | x :: p', y :: s' => (x =? y) && startswith p' s'
  | _ :: _, [] => false
  end.

(** [s.replace(old, new)] for a non-empty [old]: the occurrences of [old]
    are replaced from left to right, without overlap.  [skip] counts the
    characters of a replaced occurrence that are still to be passed. *)
Fixpoint replace_from (old new : str) (skip : nat) (s : str) : str :=
  match s with
  | [] => []
  | c :: r =>
      match skip with
      | S k => replace_from old new k r
      | O =>
          if startswith old s
          then new ++ replace_from old new (pred (List.length old)) r
          else c :: replace_from old new O r
      end
  end.

Definition replace (old new s : str) : str := replace_from old new O s.

(** [s.split(sep)] for a one-character separator: never empty. *)
Fixpoint split_on (sep : char) (s : str) : list str :=
  match s with
  | [] => [[]]
  | c :: r =>
      if c =? sep then [] :: split_on sep r
      else match split_on sep r with
           | w :: ws => (c :: w) :: ws
           | [] => [[c]]
           end
  end.

(** [s.split()]: the maximal runs of non-whitespace characters. *)
Fixpoint split (s : str) : list str :=
  match s with
  | [] => []
  | c :: r =>
      if isspace c then split r
      else match r with
           | [] => [[c]]
           | c' :: _ =>
               if isspace c' then [c] :: split r
               else match split r with
                    | w :: ws => (c :: w) :: ws
                    | [] => [[c]]
                    end
           end
  end.

End Py.

(** ** Exceptions *)

Inductive exn : Type :=
| IndexError
| OSError
| UnicodeDecodeError
| TclError
| SystemExit (code : Z).

Inductive outcome (A : Type) : Type :=
| Ok (a : A)
| Raise (e : exn).
Arguments Ok {A} a.
Arguments Raise {A} e.

Definition bind {A B : Type} (m : outcome A) (k : A -> outcome B) : outcome B :=
  match m with
  | Ok a => k a
  | Raise e => Raise e
  end.

Notation "x <- m ;; k" := (bind m (fun x => k))
  (at level 61, m at next level, right associativity).

(** [l[0]] *)
Definition item0 {A : Type} (l : list A) : outcome A :=
  match l with
  | x :: _ => Ok x
  | [] => Raise IndexError
  end.

(** A list comprehension [[f(p) for p in l]] whose element expression can raise. *)
Fixpoint comprehension {A B : Type} (f : A -> outcome B) (l : list A) : outcome (list B) :=
  match l with
  | [] => Ok []
  | x :: r => y <- f x ;; ys <- comprehension f r ;; Ok (y :: ys)
  end.

(** ** The two regular expressions of [parse_options] *)

Inductive kind : Type := B | BI.

(** [\s+] is greedy, and what follows it in the pattern always matches:
    it consumes the maximal run of whitespace, which has to be non-empty. *)
Definition spaces1 (s : str) : option str :=
  match s with
  | c :: r => if Py.isspace c then Some (Py.lstrip_by Py.isspace r) else None
  | [] => None
  end.

(** The group made of a starred dot: the dot matches any character but the
    line feed, so the group is the text up to the first line feed. *)
Fixpoint dotstar (s : str) : str :=
  match s with
  | [] => []
  | c :: r => if c =? newline then [] else c :: dotstar r
  end.

(** The [re.match] of the line pattern of [parse_options] (a dot, the group
    [B|BI], [\s+], and the starred-dot group), returning [match.groups()].
    The match is anchored at the start of the line; the alternative [B] is
    tried first and [BI] only when no whitespace follows the [B]. *)
Definition match_directive (line : str) : option (kind * str) :=
  match line with
  | c0 :: c1 :: r =>
      if (c0 =? dot) && (c1 =? 66) then
        match spaces1 r with
        | Some rest => Some (B, dotstar rest)
        | None =>
            match r with
            | c2 :: r' =>
                if c2 =? 73 then
                  match spaces1 r' with
                  | Some rest => Some (BI, dotstar rest)
                  | None => None
                  end
                else None
            | [] => None
            end
        end
      else None
  | _ => None
  end.

(** The maximal run of characters other than the double quote, and the rest. *)
Fixpoint unquoted_run (s : str) : str * str :=
  match s with
  | [] => ([], [])
  | c :: r =>
      if c =? dq then ([], s)
      else let '(g, rest) := unquoted_run r in (c :: g, rest)
  end.

(** The [re.match] of the quoted-group pattern on [content], returning
    [m.group(1)]: anchored at the start of the content, a double quote, at
    least one character other than the double quote (greedy), and a closing
    double quote. *)
Definition match_quoted (content : str) : option str :=
  match content with
  | c :: r =>
      if c =? dq then
        match unquoted_run r with
        | ((_ :: _) as g, c' :: _) => if c' =? dq then Some g else None
        | _ => None
        end
      else None
  | [] => None
  end.

(** ** Option descriptors and the extraction loop *)

Record descriptor : Type := { name : str; has_value : bool }.

Definition normalize (s : str) : str :=
  Py.replace [backslash; hyphen] [hyphen] s.

Definition is_long (p : str) : bool := Py.startswith [hyphen; hyphen] p.

(** The comprehension [p.strip() for p in content.split(',')] *)
Definition candidates (content : str) : list str :=
  map Py.strip (Py.split_on comma content).

(** The body of the [for line in mantext.splitlines()] loop: the value of
    [options] after the iteration. *)
Definition loop_body (options : list descriptor) (line : str)
  : outcome (list descriptor) :=
  match match_directive line with
  | None => Ok options
  | Some (knd, content) =>
      let content := Py.strip (normalize content) in
      match knd with
      | B =>
          let content := Py.strip_chars [dq] content in
          let parts := candidates content in
          long_opts <- comprehension (fun p => item0 (Py.split p))
                         (filter is_long parts) ;;
          match long_opts with
          | _ :: _ =>
              n <- item0 long_opts ;;
              Ok (options ++ [{| name := n; has_value := false |}])
          | [] =>
              match parts with
              | _ :: _ =>
                  p0 <- item0 parts ;;
                  n <- item0 (Py.split p0) ;;
                  Ok (options ++ [{| name := n; has_value := false |}])
              | [] => Ok options
              end
          end
      | BI =>
          match match_quoted content with
          | None => Ok options
          | Some g =>
              let optpart := normalize g in
              let parts := candidates optpart in
              let long_opts := filter is_long parts in
              target <- match long_opts with
                        | _ :: _ => item0 long_opts
                        | [] => item0 parts
                        end ;;
              Ok (options ++ [{| name := target; has_value := true |}])
          end
      end
  end.

(** The loop over the lines, [options] being the list built so far. *)
Fixpoint loop (options : list descriptor) (lines : list str)
  : outcome (list descriptor) :=
  match lines with
  | [] => Ok options
  | line :: rest => options' <- loop_body options line ;; loop options' rest
  end.

(** The part of [parse_options] that follows [read_text]. *)
Definition parse_mantext (mantext : str) : outcome (list descriptor) :=
  loop [] (Py.splitlines mantext).

(** ** The form of [build_gui] and the command of [run_scrcpy] *)

(** A Tk variable.  [build_gui] creates one per descriptor; the row of the
    descriptor identifies it. *)
Inductive tkvar : Type :=
| BooleanVar (row : nat)
| StringVar (row : nat).

(** The dictionary [widgets]: a Python dictionary iterates in the order in
    which its keys were first inserted. *)
Definition dict : Type := list (str * tkvar).

(** [d[k] = v]: an existing key keeps its place and takes the new value. *)
Fixpoint dict_set (d : dict) (k : str) (v : tkvar) : dict :=
  match d with
  | [] => [(k, v)]
  | (k', v') :: r =>
      if str_eqb k' k then (k', v) :: r else (k', v') :: dict_set r k v
  end.

Fixpoint dict_get (d : dict) (k : str) : option tkvar :=
  match d with
  | [] => None
  | (k', v') :: r => if str_eqb k' k then Some v' else dict_get r k
  end.

Definition new_var (opt : descriptor) (row : nat) : tkvar :=
  if has_value opt then StringVar row else BooleanVar row.

(** One iteration of [for opt in options] in [build_gui], on [widgets] and [row]. *)
Definition add_widget (st : dict * nat) (opt : descriptor) : dict * nat :=
  let '(widgets, row) := st in
  (dict_set widgets (name opt) (new_var opt row), S row).

Definition build_widgets (options : list descriptor) : dict :=
  fst (fold_left add_widget options ([], O)).

(** What the operator has entered when Run is pressed: the value of each
    Tk variable. *)
Record form : Type := {
  checked : nat -> bool;      (* [var.get()] of the [BooleanVar] of a row *)
  typed : nat -> str          (* [var.get()] of the [StringVar] of a row *)
}.

(** One iteration of [for name, var in widgets.items()] in [run_scrcpy]. *)
Definition add_argument (f : form) (cmd : list str) (item : str * tkvar) : list str :=
  let '(name, var) := item in
  match var with
  | BooleanVar row => if checked f row then cmd ++ [name] else cmd
  | StringVar row =>
      let value := Py.strip (typed f row) in
      match value with
      | _ :: _ => cmd ++ [name; value]
      | [] => cmd
      end
  end.

(** The list [cmd] that [run_scrcpy] hands to [subprocess.run]. *)
Definition run_scrcpy (widgets : dict) (f : form) : list str :=
  fold_left (add_argument f) widgets [lit "scrcpy"].

(** ** The manpage file, the world, and [parse_options] *)

(** What [MANPAGE] is on disk: [exists()] is false for [Missing] only;
    [read_text] raises [OSError] for an existing path that
    cannot be opened for reading (a directory, no permission) and
    [UnicodeDecodeError] for bytes that are not UTF-8. *)
Inductive manpage_file : Type :=
| Missing
| NotReadable
| NotUtf8
| Contents (text : str).

(** The world of a run: the manpage on disk, what has been printed to the
    standard error stream, the form [build_gui] has put on screen, and
    whether Tk can open a display on this machine. *)
Record world : Type := {
  manpage : manpage_file;
  stderr : list str;
  gui : option dict;
  display : bool
}.

Definition M (A : Type) : Type := world -> outcome A * world.

Definition exists_ (f : manpage_file) : bool :=
  match f with Missing => false | _ => true end.

Definition read_text (f : manpage_file) : outcome str :=
  match f with
  | Contents text => Ok text
  | NotUtf8 => Raise UnicodeDecodeError
  | _ => Raise OSError
  end.

Definition parse_options : M (list descriptor) :=
  fun w =>
    let options := [] in
    if negb (exists_ (manpage w)) then (Ok options, w)
    else (mantext <- read_text (manpage w) ;; parse_mantext mantext, w).

Definition bindM {A C : Type} (m : M A) (k : A -> M C) : M C :=
  fun w =>
    match m w with
    | (Ok a, w') => k a w'
    | (Raise e, w') => (Raise e, w')
    end.

Notation "x <~ m ;; k" := (bindM m (fun x => k))
  (at level 61, m at next level, right associativity).

Definition ret {A : Type} (a : A) : M A := fun w => (Ok a, w).

(** [print(msg, file=sys.stderr)] *)
Definition print_stderr (msg : str) : M unit :=
  fun w => (Ok tt, {| manpage := manpage w; stderr := stderr w ++ [msg]; gui := gui w;
                      display := display w |}).

(** [sys.exit(code)] *)
Definition sys_exit (code : Z) : M unit :=
  fun w => (Raise (SystemExit code), w).

(** [build_gui(options)], as far as the form goes.  Its first statement,
    [tk.Tk()], raises [TclError] when Tk cannot open a display; nothing in
    [build_gui] or [main] catches it, and no widget has been made by then.
    With a display the widgets are put on screen and the call returns when
    the window is closed. *)
Definition build_gui (options : list descriptor) : M unit :=
  fun w =>
    if display w then
      (Ok tt, {| manpage := manpage w; stderr := stderr w;
                 gui := Some (build_widgets options); display := display w |})
    else (Raise TclError, w).

Definition could_not_parse : str :=
  lit "Could not parse scrcpy options from manpage".

Definition main : M unit :=
  opts <~ parse_options ;;
  _ <~ match opts with
       | [] => _ <~ print_stderr could_not_parse ;; sys_exit 1
       | _ :: _ => ret tt
       end ;;
  build_gui opts.

(** The exit status of the interpreter after [main()]: the code of an
    uncaught [SystemExit], 1 after any other uncaught exception. *)
Definition exit_status (o : outcome unit) : Z :=
  match o with
  | Ok _ => 0%Z
  | Raise (SystemExit code) => code
  | Raise _ => 1%Z
  end.

Definition on_disk (text : str) : world :=
  {| manpage := Contents text; stderr := []; gui := None; display := true |}.

(** ** The vocabulary of the statements *)

(** Strings of whitespace only, and strings without whitespace. *)
Definition all_space (s : str) : Prop := Forall (fun c => Py.isspace c = true) s.

Definition no_space (s : str) : Prop := Forall (fun c => Py.isspace c = false) s.

(** [s] is empty or starts with a character that is not whitespace. *)
Definition starts_solid (s : str) : Prop :=
  match s with
  | [] => True
  | c :: _ => Py.isspace c = false
  end.

(** [s] is empty or starts with a whitespace character. *)
Definition starts_blank (s : str) : Prop :=
  match s with
  | [] => True
  | c :: _ => Py.isspace c = true
  end.

(** [w] is the first whitespace-delimited word of [p]. *)
Definition first_word (p w : str) : Prop :=
  exists ws rest,
    p = ws ++ w ++ rest /\ all_space ws /\ w <> [] /\ no_space w /\ starts_blank rest.

(** Closes the side conditions of [first_word]. *)
Ltac word_parts :=
  unfold all_space, no_space, starts_blank;
  repeat match goal with
         | |- _ /\ _ => split
         | |- Forall _ [] => constructor
         | |- Forall _ (_ :: _) => constructor
         | |- _ :: _ <> [] => discriminate
         end;
  try reflexivity; try assumption; auto.

(** The marker of a directive, after the dot. *)
Definition kind_text (k : kind) : str :=
  match k with
  | B => [66]
  | BI => [66; 73]
  end.

(** The line starts with the marker [.B] or [.BI] followed by whitespace. *)
Definition is_directive (line : str) : Prop :=
  exists k ws rest,
    line = dot :: kind_text k ++ ws ++ rest /\ ws <> [] /\ all_space ws.

(** [content] starts with a double-quoted, non-empty group [g]. *)
Definition leading_quoted (content g : str) : Prop :=
  exists rest, content = dq :: g ++ dq :: rest /\ g <> [] /\ ~ In dq g.

Definition not_long (p : str) : Prop := is_long p = false.

(** [p] is the first candidate that starts with a double hyphen. *)
Definition first_long (parts : list str) (p : str) : Prop :=
  exists before after,
    parts = before ++ p :: after /\ Forall not_long before /\ is_long p = true.

(** The candidates of a flag directive whose second group is [c]. *)
Definition flag_candidates (c : str) : list str :=
  candidates (Py.strip_chars [dq] (Py.strip (normalize c))).

(** The candidates of the quoted group [g] of a value directive. *)
Definition value_candidates (g : str) : list str :=
  candidates (normalize g).

Definition flag (n : str) : descriptor := {| name := n; has_value := false |}.
Definition valued (n : str) : descriptor := {| name := n; has_value := true |}.

(** What one line does to [options]: nothing, one more descriptor, or an
    [IndexError], the latter exactly for a flag directive without
    double-hyphen candidate whose first candidate has no word. *)
Inductive line_effect (line : str) : outcome (list descriptor) -> Prop :=
| effect_other :
    match_directive line = None -> line_effect line (Ok [])
| effect_flag_long c p w :
    match_directive line = Some (B, c) ->
    first_long (flag_candidates c) p -> first_word p w ->
    line_effect line (Ok [flag w])
| effect_flag_short c p0 tl w :
    match_directive line = Some (B, c) ->
    flag_candidates c = p0 :: tl -> Forall not_long (p0 :: tl) ->
    first_word p0 w ->
    line_effect line (Ok [flag w])
| effect_flag_blank c p0 tl :
    match_directive line = Some (B, c) ->
    flag_candidates c = p0 :: tl -> Forall not_long (p0 :: tl) ->
    Py.split p0 = [] ->
    line_effect line (Raise IndexError)
| effect_value_skip c :
    match_directive line = Some (BI, c) ->
    match_quoted (Py.strip (normalize c)) = None ->
    line_effect line (Ok [])
| effect_value_long c g p :
    match_directive line = Some (BI, c) ->
    match_quoted (Py.strip (normalize c)) = Some g ->
    first_long (value_candidates g) p ->
    line_effect line (Ok [valued p])
| effect_value_first c g p0 tl :
    match_directive line = Some (BI, c) ->
    match_quoted (Py.strip (normalize c)) = Some g ->
    value_candidates g = p0 :: tl -> Forall not_long (p0 :: tl) ->
    line_effect line (Ok [valued p0]).

(** What each line contributes on its own. *)
Definition contributions (lines : list str) (per_line : list (list descriptor)) : Prop :=
  Forall2 (fun line out => loop_body [] line = Ok out) lines per_line.

(** Following the words of the specification: the first double-quoted
    substring occurring anywhere in the content. *)
Fixpoint first_quoted_anywhere (content : str) : option str :=
  match content with
  | [] => None
  | _ :: r =>
      match match_quoted content with
      | Some g => Some g
      | None => first_quoted_anywhere r
      end
  end.

(** The argument group of one item of [widgets]: the option name and its
    value tokens, if the item contributes to the command. *)
Definition group_of (f : form) (item : str * tkvar) : list (str * list str) :=
  match snd item with
  | BooleanVar row => if checked f row then [(fst item, [])] else []
  | StringVar row =>
      match Py.strip (typed f row) with
      | [] => []
      | value => [(fst item, [value])]
      end
  end.

Definition tokens (g : str * list str) : list str := fst g :: snd g.

(** ** Further vocabulary: lines, names and documents *)

(** The line pattern of [parse_options] matches the line. *)
Definition is_directive_line (line : str) : bool :=
  match match_directive line with
  | Some _ => true
  | None => false
  end.

(** [s] has no whitespace at either end. *)
Definition trimmed (s : str) : Prop := starts_solid s /\ starts_solid (rev s).

(** Sequencing of two extractions: the second list after the first, the
    first error winning. *)
Definition then_extract (a b : outcome (list descriptor)) : outcome (list descriptor) :=
  ds1 <- a ;; ds2 <- b ;; Ok (ds1 ++ ds2).

(** ** Further vocabulary: the form on screen *)

(** The names of [l], each at its first occurrence. *)
Fixpoint first_occurrences (l : list str) : list str :=
  match l with
  | [] => []
  | k :: r => k :: filter (fun x => negb (str_eqb x k)) (first_occurrences r)
  end.

(** One entry per descriptor, from row [row] on: its name and the variable
    made for it. *)
Fixpoint numbered (row : nat) (options : list descriptor) : list (str * tkvar) :=
  match options with
  | [] => []
  | opt :: rest => (name opt, new_var opt row) :: numbered (S row) rest
  end.

(** The controls [build_gui] puts on the grid of the scrollable frame. *)
Inductive control : Type :=
| Label (text : str)
| Entry (textvariable : tkvar)
| Checkbutton (text : str) (variable : tkvar).

(** A control and the arguments of its [grid] call; a call without
    [columnspan] spans one column. *)
Record gridded : Type := {
  shown : control;
  grid_row : nat;
  grid_column : nat;
  grid_columnspan : nat
}.

(** One iteration of [for opt in options] in [build_gui], on [widgets],
    [row] and the controls gridded so far. *)
Definition add_row (st : dict * nat * list gridded) (opt : descriptor)
  : dict * nat * list gridded :=
  let '(widgets, row, grid) := st in
  if has_value opt then
    let label := Label (name opt) in
    let var := StringVar row in
    let entry := Entry var in
    (dict_set widgets (name opt) var, S row,
     grid ++ [ {| shown := label; grid_row := row; grid_column := 0;
                  grid_columnspan := 1 |};
               {| shown := entry; grid_row := row; grid_column := 1;
                  grid_columnspan := 1 |} ])
  else
    let var := BooleanVar row in
    let chk := Checkbutton (name opt) var in
    (dict_set widgets (name opt) var, S row,
     grid ++ [ {| shown := chk; grid_row := row; grid_column := 0;
                  grid_columnspan := 2 |} ]).

Definition build_form (options : list descriptor) : dict * nat * list gridded :=
  fold_left add_row options ([], O, []).

(** The cells of the grid a control covers, as row and column. *)
Definition cells (g : gridded) : list (nat * nat) :=
  map (fun k => (grid_row g, (grid_column g + k)%nat)) (seq 0 (grid_columnspan g)).

(** The two cells of a row. *)
Definition row_cells (row : nat) : list (nat * nat) := [(row, O); (row, 1%nat)].

(** The variable a control reads, if it is an input. *)
Definition input_var (g : gridded) : list tkvar :=
  match shown g with
  | Label _ => []
  | Entry var => [var]
  | Checkbutton _ var => [var]
  end.

(** The variable holds nothing to pass on: an unchecked box, a text that is
    empty once stripped. *)
Definition unset (f : form) (var : tkvar) : Prop :=
  match var with
  | BooleanVar row => checked f row = false
  | StringVar row => Py.strip (typed f row) = []
  end.

(** Two forms agree on a variable. *)
Definition same_input (f f' : form) (var : tkvar) : Prop :=
  match var with
  | BooleanVar row => checked f row = checked f' row
  | StringVar row => typed f row = typed f' row
  end.

Definition var_row (var : tkvar) : nat :=
  match var with
  | BooleanVar row => row
  | StringVar row => row
  end.

(** [k] is among [keys]. *)
Definition has_key (keys : list str) (k : str) : bool :=
  existsb (fun x => str_eqb x k) keys.

(** The variable holds something to pass on. *)
Definition is_set (f : form) (var : tkvar) : bool :=
  match var with
  | BooleanVar row => checked f row
  | StringVar row =>
      match Py.strip (typed f row) with
      | [] => false
      | _ :: _ => true
      end
  end.

(** The value an entry puts after its name on the command line: none for a
    checkbox, the stripped text for a text field. *)
Definition value_tokens (f : form) (var : tkvar) : list str :=
  match var with
  | BooleanVar _ => []
  | StringVar row => [Py.strip (typed f row)]
  end.

(** What an entry of [widgets] whose variable is set puts on the command
    line: its name, then its value if it is a text field. *)
Definition argument (f : form) (item : str * tkvar) : list str :=
  fst item :: value_tokens f (snd item).

(** * The examples of the specification *)

Example ex_fullscreen :
  fst (parse_options (on_disk (lit ".B " ++ [dq] ++ lit "-f, --fullscreen" ++ [dq])))
  = Ok [{| name := lit "--fullscreen"; has_value := false |}].
Proof. vm_compute. reflexivity. Qed.

Example ex_bitrate :
  fst (parse_options (on_disk (lit ".BI " ++ [dq] ++ lit "-b " ++ [dq] ++ lit "\ bit-rate")))
  = Ok [{| name := lit "-b"; has_value := true |}].
Proof. vm_compute. reflexivity. Qed.

Example ex_crop :
  fst (parse_options (on_disk (lit ".BI " ++ [dq] ++ lit "\-\-crop,\ value" ++ [dq])))
  = Ok [{| name := lit "--crop"; has_value := true |}].
Proof. vm_compute. reflexivity. Qed.

(** * Facts about the string primitives *)

Lemma str_eqb_eq (a b : str) : str_eqb a b = true <-> a = b.
Proof.
  revert b; induction a as [|x a IH]; intros [|y b]; simpl; split;
    try congruence; try discriminate.
  - intros H. apply andb_true_iff in H as [Hx Ha].
    apply N.eqb_eq in Hx. apply IH in Ha. congruence.
  - intros H. injection H as -> ->.
    rewrite N.eqb_refl. simpl. now apply IH.
Qed.

Lemma str_eqb_refl (a : str) : str_eqb a a = true.
Proof. now apply str_eqb_eq. Qed.

Lemma str_eqb_neq (a b : str) : str_eqb a b = false <-> a <> b.
Proof.
  split.
  - intros H E. apply str_eqb_eq in E. congruence.
  - intros H. destruct (str_eqb a b) eqn:E; [|reflexivity].
    apply str_eqb_eq in E. contradiction.
Qed.

Lemma lstrip_by_decompose (p : char -> bool) (s : str) :
  exists ws, s = ws ++ Py.lstrip_by p s /\ Forall (fun c => p c = true) ws.
Proof.
  induction s as [|c r IH]; simpl.
  - exists []. split; [reflexivity | constructor].
  - destruct (p c) eqn:Hc.
    + destruct IH as (ws & Hr & Hws). exists (c :: ws). split.
      * simpl. now rewrite <- Hr.
      * now constructor.
    + exists []. split; [reflexivity | constructor].
Qed.

Lemma lstrip_by_head (p : char -> bool) (s : str) (c : char) (r : str) :
  Py.lstrip_by p s = c :: r -> p c = false.
Proof.
  induction s as [|x s IH]; simpl; [discriminate|].
  destruct (p x) eqn:Hx; [exact IH|].
  intros H. injection H as -> _. exact Hx.
Qed.

Lemma lstrip_by_app (p : char -> bool) (ws rest : str) :
  Forall (fun c => p c = true) ws ->
  match rest with [] => True | c :: _ => p c = false end ->
  Py.lstrip_by p (ws ++ rest) = rest.
Proof.
  intros Hws Hrest. induction Hws as [|c ws Hc _ IH]; simpl.
  - destruct rest as [|c r]; simpl; [reflexivity|]. now rewrite Hrest.
  - now rewrite Hc.
Qed.

Lemma split_cons (c : char) (r : str) :
  Py.split (c :: r) =
  if Py.isspace c then Py.split r
  else match r with
       | [] => [[c]]
       | c' :: _ =>
           if Py.isspace c' then [c] :: Py.split r
           else match Py.split r with
                | w :: ws => (c :: w) :: ws
                | [] => [[c]]
                end
       end.
Proof. reflexivity. Qed.

Lemma split_solid (c : char) (r : str) :
  Py.isspace c = false -> exists w ws, Py.split (c :: r) = (c :: w) :: ws.
Proof.
  revert c. induction r as [|c' r IH]; intros c Hc; rewrite split_cons, Hc.
  - now exists [], [].
  - destruct (Py.isspace c') eqn:Hc'.
    + now exists [], (Py.split (c' :: r)).
    + destruct (IH c' Hc') as (w & ws & ->). now exists (c' :: w), ws.
Qed.

Lemma split_first_word (p w : str) (ws : list str) :
  Py.split p = w :: ws -> first_word p w.
Proof.
  revert w ws. induction p as [|c r IH]; intros w ws; [discriminate|].
  rewrite split_cons. destruct (Py.isspace c) eqn:Hc.
  - intros H. destruct (IH _ _ H) as (bl & rest & -> & Hbl & Hw & Hns & Hrest).
    exists (c :: bl), rest. word_parts.
  - destruct r as [|c' r'].
    + intros H. injection H as <- <-. exists [], []. word_parts.
    + destruct (Py.isspace c') eqn:Hc'.
      * intros H. injection H as <- <-. exists [], (c' :: r'). word_parts.
      * destruct (split_solid c' r' Hc') as (w' & ws' & E). rewrite E.
        intros H. injection H as <- <-.
        destruct (IH _ _ E) as (bl & rest & Hp & Hbl & Hw & Hns & Hrest).
        destruct bl as [|b bl].
        -- simpl in Hp. exists [], rest.
           word_parts; try (simpl; now rewrite Hp); now inversion Hns.
        -- simpl in Hp. injection Hp as <- _. inversion Hbl; congruence.
Qed.

Lemma split_word_then_blank (w rest : str) :
  w <> [] -> no_space w -> starts_blank rest ->
  exists ws, Py.split (w ++ rest) = w :: ws.
Proof.
  intros Hw Hns Hrest. induction w as [|c w IH]; [contradiction|].
  inversion Hns as [|? ? Hc Hns']; subst.
  change ((c :: w) ++ rest) with (c :: (w ++ rest)).
  rewrite split_cons, Hc.
  destruct w as [|c' w'].
  - destruct rest as [|b rest']; [now exists []|].
    unfold starts_blank in Hrest. cbn [app]. cbv iota. rewrite Hrest. now eexists.
  - destruct IH as (ws & E); [discriminate | assumption |].
    inversion Hns' as [|? ? Hc' _]; subst.
    change ((c' :: w') ++ rest) with (c' :: (w' ++ rest)) in *.
    cbv iota. rewrite Hc', E. now exists ws.
Qed.

Lemma first_word_split (p w : str) :
  first_word p w -> exists ws, Py.split p = w :: ws.
Proof.
  intros (bl & rest & -> & Hbl & Hw & Hns & Hrest).
  induction Hbl as [|b bl Hb _ IH].
  - rewrite app_nil_l. now apply split_word_then_blank.
  - change ((b :: bl) ++ w ++ rest) with (b :: (bl ++ w ++ rest)).
    now rewrite split_cons, Hb.
Qed.

Lemma first_word_nonempty (p w : str) : first_word p w -> w <> [].
Proof. now intros (_ & _ & _ & _ & H & _). Qed.

Lemma first_word_no_space (p w : str) : first_word p w -> no_space w.
Proof. now intros (_ & _ & _ & _ & _ & H & _). Qed.

(** * The two patterns, declaratively *)

Lemma spaces1_spec (s rest : str) :
  spaces1 s = Some rest <->
  exists ws, s = ws ++ rest /\ ws <> [] /\ all_space ws /\ starts_solid rest.
Proof.
  unfold spaces1. split.
  - destruct s as [|c r]; [discriminate|].
    destruct (Py.isspace c) eqn:Hc; [|discriminate].
    intros H. injection H as <-.
    destruct (lstrip_by_decompose Py.isspace r) as (ws & Hr & Hws).
    exists (c :: ws). repeat split.
    + simpl. now rewrite <- Hr.
    + discriminate.
    + now constructor.
    + unfold starts_solid. destruct (Py.lstrip_by Py.isspace r) eqn:E; [exact I|].
      eapply lstrip_by_head; eassumption.
  - intros (ws & -> & Hne & Hws & Hrest).
    destruct ws as [|c ws]; [contradiction|].
    inversion Hws as [|? ? Hc Hws']; subst. simpl. rewrite Hc.
    f_equal. apply lstrip_by_app; [exact Hws'|].
    destruct rest; [exact I | exact Hrest].
Qed.

Lemma spaces1_solid (c : char) (r : str) :
  Py.isspace c = false -> spaces1 (c :: r) = None.
Proof. intros H. simpl. now rewrite H. Qed.

Lemma match_directive_spec (line : str) (k : kind) (c : str) :
  match_directive line = Some (k, c) <->
  exists ws rest,
    line = dot :: kind_text k ++ ws ++ rest /\ ws <> [] /\ all_space ws
    /\ starts_solid rest /\ c = dotstar rest.
Proof.
  split.
  - unfold match_directive. destruct line as [|c0 [|c1 r]]; try discriminate.
    destruct ((c0 =? dot) && (c1 =? 66)) eqn:H01; [|discriminate].
    apply andb_true_iff in H01 as [H0 H1].
    apply N.eqb_eq in H0, H1. subst c0 c1.
    destruct (spaces1 r) as [rest|] eqn:Hs.
    + intros H. injection H as <- <-.
      apply spaces1_spec in Hs as (ws & -> & Hne & Hws & Hrest).
      now exists ws, rest.
    + destruct r as [|c2 r']; [discriminate|].
      destruct (c2 =? 73) eqn:H2; [|discriminate].
      apply N.eqb_eq in H2. subst c2.
      destruct (spaces1 r') as [rest|] eqn:Hs'; [|discriminate].
      intros H. injection H as <- <-.
      apply spaces1_spec in Hs' as (ws & -> & Hne & Hws & Hrest).
      now exists ws, rest.
  - intros (ws & rest & -> & Hne & Hws & Hrest & ->).
    assert (Hs : spaces1 (ws ++ rest) = Some rest)
      by (apply spaces1_spec; now exists ws).
    destruct k; unfold match_directive; cbn [kind_text app].
    + replace ((dot =? dot) && (66 =? 66)) with true by reflexivity.
      now rewrite Hs.
    + replace ((dot =? dot) && (66 =? 66)) with true by reflexivity.
      rewrite spaces1_solid by reflexivity.
      replace (73 =? 73) with true by reflexivity.
      now rewrite Hs.
Qed.

Lemma match_directive_none (line : str) :
  match_directive line = None <-> ~ is_directive line.
Proof.
  split.
  - intros Hnone (k & ws & rest & -> & Hne & Hws).
    destruct (lstrip_by_decompose Py.isspace rest) as (ws' & Hr & Hws').
    set (rest' := Py.lstrip_by Py.isspace rest) in *.
    assert (H : match_directive (dot :: kind_text k ++ ws ++ rest)
                = Some (k, dotstar rest')).
    { apply match_directive_spec. exists (ws ++ ws'), rest'. repeat split.
      - rewrite <- app_assoc. do 3 f_equal. exact Hr.
      - intros E. apply app_eq_nil in E as [E _]. contradiction.
      - apply Forall_app. now split.
      - unfold starts_solid. destruct rest' as [|x r] eqn:E; [exact I|].
        eapply lstrip_by_head. exact E. }
    congruence.
  - intros Hno. destruct (match_directive line) as [[k c]|] eqn:E; [|reflexivity].
    exfalso. apply Hno. apply match_directive_spec in E.
    destruct E as (ws & rest & -> & Hne & Hws & _). now exists k, ws, rest.
Qed.

Lemma unquoted_run_spec (s g rest : str) :
  unquoted_run s = (g, rest) ->
  s = g ++ rest /\ ~ In dq g /\ (rest = [] \/ exists r, rest = dq :: r).
Proof.
  revert g rest. induction s as [|c r IH]; intros g rest; simpl.
  - intros H. injection H as <- <-. auto.
  - destruct (c =? dq) eqn:Hc.
    + apply N.eqb_eq in Hc. subst c. intros H. injection H as <- <-.
      repeat split; auto. right. now exists r.
    + destruct (unquoted_run r) as [g' rest'] eqn:E.
      intros H. injection H as <- <-.
      destruct (IH _ _ eq_refl) as (-> & Hg & Hrest).
      repeat split; auto. intros [Hin|Hin]; [|contradiction].
      subst c. now rewrite N.eqb_refl in Hc.
Qed.

Lemma unquoted_run_app (g rest : str) :
  ~ In dq g -> unquoted_run (g ++ dq :: rest) = (g, dq :: rest).
Proof.
  induction g as [|c g IH]; intros Hg; simpl.
  - reflexivity.
  - destruct (c =? dq) eqn:Hc.
    + apply N.eqb_eq in Hc. exfalso. apply Hg. now left.
    + rewrite IH; [reflexivity|]. intros Hin. apply Hg. now right.
Qed.

Lemma match_quoted_spec (content g : str) :
  match_quoted content = Some g <-> leading_quoted content g.
Proof.
  unfold match_quoted, leading_quoted. split.
  - destruct content as [|c r]; [discriminate|].
    destruct (c =? dq) eqn:Hc; [|discriminate].
    apply N.eqb_eq in Hc. subst c.
    destruct (unquoted_run r) as [g' rest'] eqn:E.
    apply unquoted_run_spec in E as (-> & Hg & _).
    destruct g' as [|x g']; [discriminate|].
    destruct rest' as [|c' rest']; [discriminate|].
    destruct (c' =? dq) eqn:Hc'; [|discriminate].
    apply N.eqb_eq in Hc'. subst c'.
    intros H. injection H as <-. exists rest'. repeat split; auto. discriminate.
  - intros (rest & -> & Hne & Hg).
    replace (dq =? dq) with true by reflexivity.
    rewrite unquoted_run_app by exact Hg.
    destruct g; [contradiction|]. reflexivity.
Qed.

Lemma match_quoted_none (content : str) :
  match_quoted content = None <-> ~ exists g, leading_quoted content g.
Proof.
  split.
  - intros Hn (g & Hg). apply match_quoted_spec in Hg. congruence.
  - intros Hn. destruct (match_quoted content) as [g|] eqn:E; [|reflexivity].
    exfalso. apply Hn. exists g. now apply match_quoted_spec.
Qed.

(** * The loop body, line by line *)

Lemma filter_first_long (parts : list str) (p : str) :
  first_long parts p <-> exists r, filter is_long parts = p :: r.
Proof.
  split.
  - intros (before & after & -> & Hb & Hp).
    induction Hb as [|q before Hq _ IH]; simpl.
    + rewrite Hp. now eexists.
    + unfold not_long in Hq. now rewrite Hq.
  - intros (r & H). revert H.
    induction parts as [|q parts IH]; simpl; [discriminate|].
    destruct (is_long q) eqn:Hq.
    + intros E. injection E as -> _. exists [], parts. repeat split; auto.
    + intros E. destruct (IH E) as (before & after & -> & Hb & Hp).
      exists (q :: before), after. repeat split; auto.
Qed.

Lemma filter_no_long (parts : list str) :
  Forall not_long parts <-> filter is_long parts = [].
Proof.
  induction parts as [|q parts IH]; simpl.
  - split; auto.
  - destruct (is_long q) eqn:Hq; split.
    + intros H. inversion H; subst. unfold not_long in *. congruence.
    + discriminate.
    + intros H. inversion H; subst. now apply IH.
    + intros H. constructor; [exact Hq | now apply IH].
Qed.

Lemma split_on_nonempty (sep : char) (s : str) : Py.split_on sep s <> [].
Proof.
  induction s as [|c r IH]; simpl; [discriminate|].
  destruct (c =? sep); [discriminate|].
  destruct (Py.split_on sep r); discriminate.
Qed.

Lemma candidates_nonempty (content : str) : candidates content <> [].
Proof.
  unfold candidates. intros H. apply map_eq_nil in H.
  now apply split_on_nonempty in H.
Qed.

Lemma is_long_solid (p : str) :
  is_long p = true -> exists w ws, Py.split p = w :: ws.
Proof.
  unfold is_long. destruct p as [|c r]; cbn [Py.startswith]; [discriminate|].
  intros H. apply andb_true_iff in H as [Hc _]. apply N.eqb_eq in Hc. subst c.
  destruct (split_solid hyphen r eq_refl) as (w & ws & E). eauto.
Qed.

(** The comprehension building [long_opts] in the flag branch raises nothing. *)
Lemma long_words (l : list str) :
  Forall (fun p => is_long p = true) l ->
  exists ws,
    comprehension (fun p => item0 (Py.split p)) l = Ok ws /\ Forall2 first_word l ws.
Proof.
  induction 1 as [|p l Hp _ (ws & E & Hws)]; simpl.
  - exists []. split; [reflexivity | constructor].
  - destruct (is_long_solid p Hp) as (w & tl & Hsplit).
    rewrite Hsplit. simpl. rewrite E. simpl.
    exists (w :: ws). split; [reflexivity|].
    constructor; [|exact Hws]. eapply split_first_word; eassumption.
Qed.

Lemma filter_all_long (parts : list str) :
  Forall (fun p => is_long p = true) (filter is_long parts).
Proof. apply Forall_forall. intros p Hp. now apply filter_In in Hp. Qed.

Section Line.

Variable options : list descriptor.
Variable line : str.

(** A line that is no directive leaves [options] as it is. *)
Lemma other_line : match_directive line = None -> loop_body options line = Ok options.
Proof. unfold loop_body. now intros ->. Qed.

(** A flag directive with a double-hyphen candidate. *)
Lemma flag_line_long (c p : str) :
  match_directive line = Some (B, c) ->
  first_long (flag_candidates c) p ->
  exists w, first_word p w /\ loop_body options line = Ok (options ++ [flag w]).
Proof.
  intros Hm Hp. unfold loop_body. rewrite Hm.
  fold (flag_candidates c).
  apply filter_first_long in Hp as (r & Hf).
  destruct (long_words _ (filter_all_long (flag_candidates c))) as (ws & E & Hws).
  rewrite E. simpl. rewrite Hf in Hws.
  inversion Hws as [|? w ? ws' Hw _]; subst.
  exists w. split; [exact Hw | reflexivity].
Qed.

(** A flag directive without a double-hyphen candidate. *)
Lemma flag_line_short (c p0 : str) (tl : list str) :
  match_directive line = Some (B, c) ->
  flag_candidates c = p0 :: tl ->
  Forall not_long (p0 :: tl) ->
  loop_body options line = (w <- item0 (Py.split p0) ;; Ok (options ++ [flag w])).
Proof.
  intros Hm Hc Hno. unfold loop_body. rewrite Hm.
  fold (flag_candidates c). rewrite Hc.
  apply filter_no_long in Hno. rewrite Hno. reflexivity.
Qed.

(** A value directive whose content does not start with a quoted group. *)
Lemma value_line_unquoted (c : str) :
  match_directive line = Some (BI, c) ->
  match_quoted (Py.strip (normalize c)) = None ->
  loop_body options line = Ok options.
Proof. intros Hm Hq. unfold loop_body. now rewrite Hm, Hq. Qed.

(** A value directive whose content starts with the quoted group [g]. *)
Lemma value_line_quoted (c g : str) :
  match_directive line = Some (BI, c) ->
  match_quoted (Py.strip (normalize c)) = Some g ->
  (forall p, first_long (value_candidates g) p ->
             loop_body options line = Ok (options ++ [valued p]))
  /\ (Forall not_long (value_candidates g) ->
      exists p0 tl, value_candidates g = p0 :: tl
                    /\ loop_body options line = Ok (options ++ [valued p0])).
Proof.
  intros Hm Hq. unfold loop_body. rewrite Hm, Hq.
  fold (value_candidates g). split.
  - intros p Hp. apply filter_first_long in Hp as (r & Hf).
    now rewrite Hf.
  - intros Hno. apply filter_no_long in Hno. rewrite Hno.
    destruct (value_candidates g) as [|p0 tl] eqn:E.
    + now apply candidates_nonempty in E.
    + now exists p0, tl.
Qed.

End Line.

Lemma long_or_not (parts : list str) :
  (exists p, first_long parts p) \/ Forall not_long parts.
Proof.
  destruct (filter is_long parts) as [|p r] eqn:E.
  - right. now apply filter_no_long.
  - left. exists p. apply filter_first_long. now exists r.
Qed.

Lemma first_long_In (parts : list str) (p : str) : first_long parts p -> In p parts.
Proof. intros (b & a & -> & _). apply in_or_app. right. now left. Qed.

Lemma loop_body_effect (line : str) : line_effect line (loop_body [] line).
Proof.
  destruct (match_directive line) as [[[|] c]|] eqn:Hm.
  - destruct (long_or_not (flag_candidates c)) as [(p & Hp)|Hno].
    + destruct (flag_line_long [] line c p Hm Hp) as (w & Hw & ->).
      eapply effect_flag_long; eassumption.
    + destruct (flag_candidates c) as [|p0 tl] eqn:E.
      { now apply candidates_nonempty in E. }
      rewrite (flag_line_short [] line c p0 tl Hm E Hno).
      destruct (Py.split p0) as [|w ws] eqn:Hs; simpl.
      * eapply effect_flag_blank; eassumption.
      * eapply effect_flag_short; try eassumption.
        eapply split_first_word; eassumption.
  - destruct (match_quoted (Py.strip (normalize c))) as [g|] eqn:Hq.
    + destruct (value_line_quoted [] line c g Hm Hq) as [Hlong Hfirst].
      destruct (long_or_not (value_candidates g)) as [(p & Hp)|Hno].
      * rewrite (Hlong p Hp). eapply effect_value_long; eassumption.
      * destruct (Hfirst Hno) as (p0 & tl & E & ->).
        rewrite E in Hno. eapply effect_value_first; eassumption.
    + rewrite (value_line_unquoted [] line c Hm Hq).
      eapply effect_value_skip; eassumption.
  - rewrite (other_line [] line Hm). now apply effect_other.
Qed.

(** The iteration only appends to [options]. *)
Lemma loop_body_appends (options : list descriptor) (line : str) :
  loop_body options line = (out <- loop_body [] line ;; Ok (options ++ out)).
Proof.
  destruct (match_directive line) as [[[|] c]|] eqn:Hm.
  - destruct (long_or_not (flag_candidates c)) as [(p & Hp)|Hno].
    + destruct (flag_line_long options line c p Hm Hp) as (w & Hw & ->).
      destruct (flag_line_long [] line c p Hm Hp) as (w' & Hw' & ->).
      destruct (first_word_split _ _ Hw) as (ws & E).
      destruct (first_word_split _ _ Hw') as (ws' & E').
      simpl. congruence.
    + destruct (flag_candidates c) as [|p0 tl] eqn:E.
      { now apply candidates_nonempty in E. }
      rewrite (flag_line_short options line c p0 tl Hm E Hno).
      rewrite (flag_line_short [] line c p0 tl Hm E Hno).
      now destruct (Py.split p0).
  - destruct (match_quoted (Py.strip (normalize c))) as [g|] eqn:Hq.
    + destruct (value_line_quoted options line c g Hm Hq) as [Hlong Hfirst].
      destruct (value_line_quoted [] line c g Hm Hq) as [Hlong' Hfirst'].
      destruct (long_or_not (value_candidates g)) as [(p & Hp)|Hno].
      * now rewrite (Hlong p Hp), (Hlong' p Hp).
      * destruct (Hfirst Hno) as (p0 & tl & E & ->).
        destruct (Hfirst' Hno) as (p0' & tl' & E' & ->).
        simpl. congruence.
    + rewrite (value_line_unquoted options line c Hm Hq).
      rewrite (value_line_unquoted [] line c Hm Hq).
      simpl. now rewrite app_nil_r.
  - rewrite !other_line by exact Hm. simpl. now rewrite app_nil_r.
Qed.

(** * The loop over the lines *)

Lemma loop_spec (lines : list str) (options ds : list descriptor) :
  loop options lines = Ok ds <->
  exists per_line, contributions lines per_line /\ ds = options ++ concat per_line.
Proof.
  revert options. induction lines as [|line rest IH]; intros options; simpl.
  - split.
    + intros H. injection H as <-. exists []. split; [constructor|].
      simpl. now rewrite app_nil_r.
    + intros (per_line & Hc & ->). inversion Hc; subst.
      simpl. now rewrite app_nil_r.
  - rewrite loop_body_appends.
    destruct (loop_body [] line) as [out|e] eqn:E; simpl.
    + rewrite IH. split.
      * intros (per_line & Hc & ->). exists (out :: per_line). split.
        -- now constructor.
        -- simpl. now rewrite app_assoc.
      * intros (per_line & Hc & ->).
        inversion Hc as [|? out' ? per_line' Hout Hrest]; subst.
        assert (out' = out) by congruence. subst out'.
        exists per_line'. split; [exact Hrest|]. simpl. now rewrite app_assoc.
    + split; [discriminate|].
      intros (per_line & Hc & _). inversion Hc; subst. congruence.
Qed.

Lemma contributions_In (lines : list str) (per_line : list (list descriptor)) (d : descriptor) :
  contributions lines per_line -> In d (concat per_line) ->
  exists line out, In line lines /\ loop_body [] line = Ok out /\ In d out.
Proof.
  induction 1 as [|line out lines per_line Hout _ IH]; simpl; [contradiction|].
  intros Hin. apply in_app_or in Hin as [Hin|Hin].
  - exists line, out. auto.
  - destruct (IH Hin) as (line' & out' & Hl & Ho & Hd).
    exists line', out'. auto.
Qed.

Lemma contribution_at_most_one (line : str) (out : list descriptor) :
  loop_body [] line = Ok out -> (List.length out <= 1)%nat.
Proof.
  intros H. pose proof (loop_body_effect line) as He. rewrite H in He.
  inversion He; subst; simpl; lia.
Qed.

Lemma parse_options_world (w : world) : snd (parse_options w) = w.
Proof. unfold parse_options. now destruct (negb (exists_ (manpage w))). Qed.

Lemma parse_options_contents (w : world) (text : str) :
  manpage w = Contents text -> fst (parse_options w) = parse_mantext text.
Proof. unfold parse_options. now intros ->. Qed.

Lemma parse_options_missing (w : world) :
  manpage w = Missing -> fst (parse_options w) = Ok [].
Proof. unfold parse_options. now intros ->. Qed.

Lemma parse_options_returns (w : world) (ds : list descriptor) :
  fst (parse_options w) = Ok ds ->
  (manpage w = Missing /\ ds = [])
  \/ exists text, manpage w = Contents text /\ parse_mantext text = Ok ds.
Proof.
  unfold parse_options. destruct (manpage w) as [| | |text]; simpl; try discriminate.
  - intros H. injection H as <-. now left.
  - intros H. right. now exists text.
Qed.

(** * The claims *)

(** C1.  The extractor is claimed never to raise, flag directives whose
    content is empty after quote-stripping included.  On the one-line manpage
    made of the flag directive with an empty quoted content, [.B] followed by
    a space and two double quotes, the candidate list is the singleton of the
    empty string, which passes the test [elif parts], and [parts[0].split()[0]]
    raises [IndexError] out of [parse_options]. *)
Theorem parse_options_raises_on_blank_flag :
  match_directive (lit ".B " ++ [dq; dq]) = Some (B, [dq; dq])
  /\ flag_candidates [dq; dq] = [[]]
  /\ fst (parse_options (on_disk (lit ".B " ++ [dq; dq]))) = Raise IndexError.
Proof. repeat split; vm_compute; reflexivity. Qed.

(** The same on a flag directive made of the marker and one space only. *)
Example parse_options_raises_on_bare_flag :
  fst (parse_options (on_disk (lit ".B "))) = Raise IndexError.
Proof. vm_compute. reflexivity. Qed.

(** The lines on which the loop body raises: the flag directives without
    double-hyphen candidate whose first candidate has no word. *)
Lemma loop_body_raises (line : str) (e : exn) :
  loop_body [] line = Raise e <->
  e = IndexError
  /\ exists c p0 tl,
       match_directive line = Some (B, c) /\ flag_candidates c = p0 :: tl
       /\ Forall not_long (p0 :: tl) /\ Py.split p0 = [].
Proof.
  split.
  - intros H. pose proof (loop_body_effect line) as He. rewrite H in He.
    inversion He; subst. split; [reflexivity|]. now exists c, p0, tl.
  - intros (-> & c & p0 & tl & Hm & Hc & Hno & Hs).
    rewrite (flag_line_short [] line c p0 tl Hm Hc Hno), Hs. reflexivity.
Qed.

(** C4.  A flag directive is claimed to emit the first word of the first
    double-hyphen candidate, or else the first word of the first candidate.
    On the flag directive [.B ,x] no candidate starts with a double hyphen,
    the candidates are the empty string and [x], and the loop body raises
    [IndexError] instead of emitting a descriptor. *)
Theorem flag_directive_raises_on_empty_first_candidate :
  match_directive (lit ".B ,x") = Some (B, lit ",x")
  /\ flag_candidates (lit ",x") = [[]; lit "x"]
  /\ Forall not_long (flag_candidates (lit ",x"))
  /\ loop_body [] (lit ".B ,x") = Raise IndexError
  /\ fst (parse_options (on_disk (lit ".B ,x"))) = Raise IndexError.
Proof.
  repeat split; try (vm_compute; reflexivity).
  repeat constructor.
Qed.

(** What holds of the flag directives: with a double-hyphen candidate, the
    first word of the first such candidate is emitted; without one, the first
    word of the first candidate, when it has one. *)
Lemma flag_directive_emits (options : list descriptor) (line c : str) :
  match_directive line = Some (B, c) ->
  (forall p, first_long (flag_candidates c) p ->
             exists w, first_word p w
                       /\ loop_body options line = Ok (options ++ [flag w]))
  /\ (forall p0 tl w,
        flag_candidates c = p0 :: tl -> Forall not_long (p0 :: tl) ->
        first_word p0 w ->
        loop_body options line = Ok (options ++ [flag w])).
Proof.
  intros Hm. split.
  - intros p Hp. now apply flag_line_long with (c := c).
  - intros p0 tl w Hc Hno Hw.
    rewrite (flag_line_short options line c p0 tl Hm Hc Hno).
    destruct (first_word_split _ _ Hw) as (ws & ->). reflexivity.
Qed.

Example flag_directive_emits_fullscreen :
  loop_body [] (lit ".B " ++ [dq] ++ lit "-f, --fullscreen" ++ [dq])
  = Ok [flag (lit "--fullscreen")].
Proof. vm_compute. reflexivity. Qed.

Example flag_directive_emits_short :
  loop_body [] (lit ".B -f x, -g") = Ok [flag (lit "-f")].
Proof. vm_compute. reflexivity. Qed.

(** C2, as stated, fails: the value directive whose quoted group is
    [--a b] yields the name [--a b], which contains a space and so is the
    first whitespace-delimited word of nothing. *)
Lemma value_name_is_not_a_first_word :
  fst (parse_options (on_disk (lit ".BI " ++ [dq] ++ lit "--a b" ++ [dq])))
  = Ok [valued (lit "--a b")]
  /\ ~ exists p, first_word p (name (valued (lit "--a b"))).
Proof.
  split; [vm_compute; reflexivity|].
  intros (p & Hp). apply first_word_no_space in Hp.
  apply Forall_forall with (x := 32) in Hp; [discriminate|].
  simpl. auto 10.
Qed.

(** A value directive can also yield an empty name. *)
Example value_name_can_be_empty :
  fst (parse_options (on_disk (lit ".BI " ++ [dq] ++ lit " " ++ [dq])))
  = Ok [valued []].
Proof. vm_compute. reflexivity. Qed.

(** C2, amended.  Every descriptor returned by [parse_options] comes from a
    directive line of the manpage.  A descriptor of the flag branch
    ([has_value] false) has a non-empty name without whitespace, the first
    whitespace-delimited word of one of the comma-separated candidates of its
    line.  A descriptor of the value branch ([has_value] true) has as name
    one of the whitespace-trimmed candidates of the quoted group that starts
    the content of its line, in full. *)
Theorem descriptor_names (w : world) (ds : list descriptor) (d : descriptor) :
  fst (parse_options w) = Ok ds -> In d ds ->
  exists text line c,
    manpage w = Contents text /\ In line (Py.splitlines text)
    /\ ((has_value d = false /\ match_directive line = Some (B, c)
         /\ name d <> [] /\ no_space (name d)
         /\ exists p, In p (flag_candidates c) /\ first_word p (name d))
        \/ (has_value d = true /\ match_directive line = Some (BI, c)
            /\ exists g, leading_quoted (Py.strip (normalize c)) g
                         /\ In (name d) (value_candidates g))).
Proof.
  intros Hret Hin.
  apply parse_options_returns in Hret as [[_ ->]|(text & Hfile & Hparse)];
    [contradiction|].
  unfold parse_mantext in Hparse.
  apply loop_spec in Hparse as (per_line & Hc & ->).
  destruct (contributions_In _ _ _ Hc Hin) as (line & out & Hline & Hout & Hd).
  pose proof (loop_body_effect line) as He. rewrite Hout in He.
  assert (Hsingle : forall x : descriptor, In d [x] -> d = x)
    by (intros x [E|[]]; now symmetry).
  inversion He as
    [ Hm | c p wd Hm Hp Hw | c p0 tl wd Hm Hcs Hno Hw | |
      c Hm Hq | c g p Hm Hq Hp | c g p0 tl Hm Hq Hcs Hno ]; subst;
    try contradiction; apply Hsingle in Hd; subst d;
    exists text, line, c; (split; [assumption|]); (split; [assumption|]).
  - left. repeat split; try assumption.
    + eapply first_word_nonempty; eassumption.
    + eapply first_word_no_space; eassumption.
    + exists p. split; [now apply first_long_In | exact Hw].
  - left. repeat split; try assumption.
    + eapply first_word_nonempty; eassumption.
    + eapply first_word_no_space; eassumption.
    + exists p0. split; [rewrite Hcs; now left | exact Hw].
  - right. repeat split; try assumption.
    exists g. split; [now apply match_quoted_spec | now apply first_long_In].
  - right. repeat split; try assumption.
    exists g. split; [now apply match_quoted_spec | rewrite Hcs; now left].
Qed.

Lemma descriptor_names_witness :
  let w := on_disk (lit ".B " ++ [dq] ++ lit "-f, --fullscreen" ++ [dq]) in
  let d := flag (lit "--fullscreen") in
  fst (parse_options w) = Ok [d] /\ In d [d]
  /\ exists text line c,
       manpage w = Contents text /\ In line (Py.splitlines text)
       /\ ((has_value d = false /\ match_directive line = Some (B, c)
            /\ name d <> [] /\ no_space (name d)
            /\ exists p, In p (flag_candidates c) /\ first_word p (name d))
           \/ (has_value d = true /\ match_directive line = Some (BI, c)
               /\ exists g, leading_quoted (Py.strip (normalize c)) g
                            /\ In (name d) (value_candidates g))).
Proof.
  intros w d.
  assert (Hret : fst (parse_options w) = Ok [d]) by (vm_compute; reflexivity).
  assert (Hin : In d [d]) by (left; reflexivity).
  split; [exact Hret|]. split; [exact Hin|].
  exact (descriptor_names w [d] d Hret Hin).
Defined.

Lemma no_quoted_anywhere (content : str) :
  first_quoted_anywhere content = None -> match_quoted content = None.
Proof.
  destruct content as [|c r]; [reflexivity|].
  cbn [first_quoted_anywhere]. now destruct (match_quoted (c :: r)).
Qed.

(** C3, as stated, fails: the content of the value directive below holds the
    double-quoted substring [--foo], after a first word, and the line yields
    no descriptor: the pattern is matched at the start of the content only. *)
Lemma quoted_group_must_lead :
  let line := lit ".BI x " ++ [dq] ++ lit "--foo" ++ [dq] in
  let content := lit "x " ++ [dq] ++ lit "--foo" ++ [dq] in
  match_directive line = Some (BI, content)
  /\ first_quoted_anywhere (Py.strip (normalize content)) = Some (lit "--foo")
  /\ loop_body [] line = Ok [].
Proof. repeat split; vm_compute; reflexivity. Qed.

(** C3, amended.  For a value directive, the option group is the
    double-quoted, non-empty substring that starts the content (after hyphen
    normalization and trimming): the line yields one descriptor, named after
    one of the candidates of that group.  When the content does not start
    with such a substring, and so when it holds no double-quoted substring
    at all, the line yields no descriptor. *)
Theorem value_directive_quoted_group (options : list descriptor) (line c : str) :
  match_directive line = Some (BI, c) ->
  (forall g, leading_quoted (Py.strip (normalize c)) g ->
             exists target, In target (value_candidates g)
                            /\ loop_body options line = Ok (options ++ [valued target]))
  /\ ((~ exists g, leading_quoted (Py.strip (normalize c)) g) ->
      loop_body options line = Ok options)
  /\ (first_quoted_anywhere (Py.strip (normalize c)) = None ->
      loop_body options line = Ok options).
Proof.
  intros Hm. repeat split.
  - intros g Hg. apply match_quoted_spec in Hg.
    destruct (value_line_quoted options line c g Hm Hg) as [Hlong Hfirst].
    destruct (long_or_not (value_candidates g)) as [(p & Hp)|Hno].
    + exists p. split; [now apply first_long_In | now apply Hlong].
    + destruct (Hfirst Hno) as (p0 & tl & E & Hb).
      exists p0. split; [rewrite E; now left | exact Hb].
  - intros Hnone. apply match_quoted_none in Hnone.
    now apply value_line_unquoted with (c := c).
  - intros Hnone. apply no_quoted_anywhere in Hnone.
    now apply value_line_unquoted with (c := c).
Qed.

Lemma value_directive_quoted_group_witness :
  let line := lit ".BI " ++ [dq] ++ lit "-b " ++ [dq] ++ lit "\ bit-rate" in
  let c := [dq] ++ lit "-b " ++ [dq] ++ lit "\ bit-rate" in
  match_directive line = Some (BI, c)
  /\ leading_quoted (Py.strip (normalize c)) (lit "-b ")
  /\ exists target, In target (value_candidates (lit "-b "))
                    /\ loop_body [] line = Ok ([] ++ [valued target]).
Proof.
  intros line c.
  assert (Hm : match_directive line = Some (BI, c)) by (vm_compute; reflexivity).
  assert (Hg : leading_quoted (Py.strip (normalize c)) (lit "-b "))
    by (apply match_quoted_spec; vm_compute; reflexivity).
  split; [exact Hm|]. split; [exact Hg|].
  exact (proj1 (value_directive_quoted_group [] line c Hm) (lit "-b ") Hg).
Defined.

(** C5, as stated, fails, in two ways.  The quoted segment is normalized a
    second time before it is split: in the first line below the segment of
    the normalized content is [-x, \--long], none of whose comma-separated
    parts starts with a double hyphen, and the descriptor is named [--long],
    not [-x].  And the segment counts only at the start of the content: in
    the second line the quoted segment is the double-hyphen token [--bar],
    and no descriptor is emitted. *)
Lemma value_segment_is_renormalized_and_leading :
  let line := lit ".BI " ++ [dq] ++ lit "-x, \\--long" ++ [dq] in
  let line' := lit ".BI y " ++ [dq] ++ lit "--bar" ++ [dq] in
  (match_directive line = Some (BI, [dq] ++ lit "-x, \\--long" ++ [dq])
   /\ first_quoted_anywhere (Py.strip (normalize ([dq] ++ lit "-x, \\--long" ++ [dq])))
      = Some (lit "-x, \--long")
   /\ candidates (lit "-x, \--long") = [lit "-x"; lit "\--long"]
   /\ Forall not_long (candidates (lit "-x, \--long"))
   /\ loop_body [] line = Ok [valued (lit "--long")])
  /\ (match_directive line' = Some (BI, lit "y " ++ [dq] ++ lit "--bar" ++ [dq])
      /\ first_quoted_anywhere (Py.strip (normalize (lit "y " ++ [dq] ++ lit "--bar" ++ [dq])))
         = Some (lit "--bar")
      /\ first_long (candidates (lit "--bar")) (lit "--bar")
      /\ loop_body [] line' = Ok []).
Proof.
  repeat split; try (vm_compute; reflexivity).
  - repeat constructor.
  - exists [], []. repeat split. constructor.
Qed.

(** C5, amended.  For a value directive whose content (hyphens normalized,
    trimmed) starts with the quoted group [g], the candidates are the
    comma-separated, whitespace-trimmed parts of [g] with its hyphens
    normalized once more: when a candidate starts with a double hyphen, the
    descriptor is named after the first such candidate, in full, with
    [has_value] true; when none does, it is named after the first
    candidate, in full. *)
Theorem value_directive_full_token (options : list descriptor) (line c g : str) :
  match_directive line = Some (BI, c) ->
  leading_quoted (Py.strip (normalize c)) g ->
  (forall p, first_long (value_candidates g) p ->
             loop_body options line = Ok (options ++ [valued p]))
  /\ (Forall not_long (value_candidates g) ->
      exists p0 tl, value_candidates g = p0 :: tl
                    /\ loop_body options line = Ok (options ++ [valued p0])).
Proof.
  intros Hm Hg. apply match_quoted_spec in Hg.
  now apply value_line_quoted with (c := c).
Qed.

Lemma value_directive_full_token_witness :
  let line := lit ".BI " ++ [dq] ++ lit "-c, \-\-crop w:h, x" ++ [dq] in
  let c := [dq] ++ lit "-c, \-\-crop w:h, x" ++ [dq] in
  let g := lit "-c, --crop w:h, x" in
  match_directive line = Some (BI, c)
  /\ leading_quoted (Py.strip (normalize c)) g
  /\ first_long (value_candidates g) (lit "--crop w:h")
  /\ loop_body [] line = Ok ([] ++ [valued (lit "--crop w:h")]).
Proof.
  intros line c g.
  assert (Hm : match_directive line = Some (BI, c)) by (vm_compute; reflexivity).
  assert (Hg : leading_quoted (Py.strip (normalize c)) g)
    by (apply match_quoted_spec; vm_compute; reflexivity).
  assert (Hp : first_long (value_candidates g) (lit "--crop w:h")).
  { exists [lit "-c"], [lit "x"]. repeat split; try (vm_compute; reflexivity).
    repeat constructor. }
  split; [exact Hm|]. split; [exact Hg|]. split; [exact Hp|].
  exact (proj1 (value_directive_full_token [] line c g Hm Hg) _ Hp).
Defined.

(** C6.  For a manpage that can be read, [parse_options] returns [ds]
    exactly when every line contributes without raising and [ds] is the
    concatenation, in line order, of what the lines contribute, each line
    contributing at most one descriptor: source order is kept and nothing is
    dropped as a duplicate. *)
Theorem parse_options_in_line_order (w : world) (text : str) (ds : list descriptor) :
  manpage w = Contents text ->
  (fst (parse_options w) = Ok ds <->
   exists per_line,
     contributions (Py.splitlines text) per_line
     /\ Forall (fun out => (List.length out <= 1)%nat) per_line
     /\ ds = concat per_line).
Proof.
  intros Hfile. rewrite (parse_options_contents w text Hfile).
  unfold parse_mantext. rewrite loop_spec. split.
  - intros (per_line & Hc & ->). exists per_line. repeat split; auto.
    clear -Hc. induction Hc as [|line out lines per_line Hout _ IH].
    + constructor.
    + constructor; [|exact IH]. eapply contribution_at_most_one; eassumption.
  - intros (per_line & Hc & _ & ->). now exists per_line.
Qed.

Lemma parse_options_in_line_order_witness :
  let text := lit ".B --no-audio" ++ [newline] ++ lit "text" ++ [newline]
              ++ lit ".BI " ++ [dq] ++ lit "--crop " ++ [dq] ++ [newline]
              ++ lit ".B --no-audio" in
  let ds := [flag (lit "--no-audio"); valued (lit "--crop"); flag (lit "--no-audio")] in
  manpage (on_disk text) = Contents text
  /\ fst (parse_options (on_disk text)) = Ok ds
  /\ exists per_line,
       contributions (Py.splitlines text) per_line
       /\ Forall (fun out => (List.length out <= 1)%nat) per_line
       /\ ds = concat per_line.
Proof.
  intros text ds.
  assert (Hret : fst (parse_options (on_disk text)) = Ok ds)
    by (vm_compute; reflexivity).
  split; [reflexivity|]. split; [exact Hret|].
  exact (proj1 (parse_options_in_line_order (on_disk text) text ds eq_refl) Hret).
Defined.

(** C7, as stated, fails: for a manpage that exists and cannot be read,
    [read_text] raises and [parse_options] lets the error through. *)
Lemma parse_options_raises_on_unreadable :
  fst (parse_options {| manpage := NotReadable; stderr := []; gui := None;
                        display := true |})
  = Raise OSError
  /\ fst (parse_options {| manpage := NotUtf8; stderr := []; gui := None;
                           display := true |})
     = Raise UnicodeDecodeError.
Proof. split; reflexivity. Qed.

(** C7, amended.  If the manpage is absent, or can be read and has no line
    that starts with a [.B] or [.BI] marker followed by whitespace,
    [parse_options] returns the empty sequence and raises no error. *)
Theorem parse_options_empty (w : world) :
  manpage w = Missing
  \/ (exists text, manpage w = Contents text
                   /\ Forall (fun line => ~ is_directive line) (Py.splitlines text)) ->
  parse_options w = (Ok [], w).
Proof.
  intros H. rewrite (surjective_pairing (parse_options w)), parse_options_world.
  f_equal. destruct H as [Hmiss|(text & Hfile & Hlines)].
  - now apply parse_options_missing.
  - rewrite (parse_options_contents w text Hfile). unfold parse_mantext.
    induction Hlines as [|line lines Hline _ IH]; simpl; [reflexivity|].
    apply match_directive_none in Hline.
    now rewrite (other_line [] line Hline).
Qed.

Lemma parse_options_empty_witness :
  let text := lit "scrcpy" ++ [newline] ++ lit ".SH NAME" ++ [newline] ++ lit ".BR x" in
  Forall (fun line => ~ is_directive line) (Py.splitlines text)
  /\ parse_options (on_disk text) = (Ok [], on_disk text)
  /\ parse_options {| manpage := Missing; stderr := []; gui := None; display := true |}
     = (Ok [], {| manpage := Missing; stderr := []; gui := None; display := true |}).
Proof.
  intros text.
  assert (Hlines : Forall (fun line => ~ is_directive line) (Py.splitlines text)).
  { repeat constructor; apply match_directive_none; vm_compute; reflexivity. }
  split; [exact Hlines|]. split.
  - apply parse_options_empty. right. exists text. split; [reflexivity | exact Hlines].
  - apply parse_options_empty. left. reflexivity.
Defined.

(** C8, as stated, fails: the empty sequence is not the only way to a
    failing exit status.  With a manpage that cannot be read,
    [parse_options] returns nothing and [main] ends on the uncaught error. *)
Lemma main_fails_on_unreadable :
  let w := {| manpage := NotReadable; stderr := []; gui := None; display := true |} in
  fst (parse_options w) <> Ok []
  /\ fst (main w) = Raise OSError
  /\ exit_status (fst (main w)) = 1%Z.
Proof. repeat split. discriminate. Qed.

(** C9.  A call of [parse_options] leaves the world as it found it, and a
    second call, made in the world the first one left, returns what the
    first returned (or raises what it raised). *)
Theorem parse_options_repeatable (w : world) :
  snd (parse_options w) = w
  /\ fst (parse_options (snd (parse_options w))) = fst (parse_options w)
  /\ snd (parse_options (snd (parse_options w))) = w.
Proof. rewrite !parse_options_world. auto. Qed.

(** * The form and the command line *)

Lemma dict_get_set_same (d : dict) (k : str) (v : tkvar) :
  dict_get (dict_set d k v) k = Some v.
Proof.
  induction d as [|[k' v'] d IH]; simpl.
  - now rewrite str_eqb_refl.
  - destruct (str_eqb k' k) eqn:E; simpl; now rewrite E.
Qed.

Lemma dict_get_set_other (d : dict) (k k0 : str) (v : tkvar) :
  k0 <> k -> dict_get (dict_set d k v) k0 = dict_get d k0.
Proof.
  intros Hne. induction d as [|[k' v'] d IH]; simpl.
  - apply not_eq_sym in Hne. apply str_eqb_neq in Hne. now rewrite Hne.
  - destruct (str_eqb k' k) eqn:E; simpl.
    + apply str_eqb_eq in E. subst k'.
      apply not_eq_sym in Hne. apply str_eqb_neq in Hne. now rewrite Hne.
    + now rewrite IH.
Qed.

Lemma dict_set_keys (d : dict) (k k0 : str) (v : tkvar) :
  In k0 (map fst (dict_set d k v)) <-> k0 = k \/ In k0 (map fst d).
Proof.
  induction d as [|[k' v'] d IH]; simpl.
  - intuition.
  - destruct (str_eqb k' k) eqn:E; simpl.
    + apply str_eqb_eq in E. subst k'. intuition.
    + rewrite IH. intuition.
Qed.

Lemma dict_set_NoDup (d : dict) (k : str) (v : tkvar) :
  NoDup (map fst d) -> NoDup (map fst (dict_set d k v)).
Proof.
  induction d as [|[k' v'] d IH]; simpl; intros Hnd.
  - constructor; [intros [] | constructor].
  - inversion Hnd as [|? ? Hnotin Hnd']; subst.
    destruct (str_eqb k' k) eqn:E; simpl.
    + now constructor.
    + constructor; [|now apply IH].
      rewrite dict_set_keys. intros [->|Hin]; [|contradiction].
      now rewrite str_eqb_refl in E.
Qed.

Lemma add_widget_rows (options : list descriptor) (st : dict * nat) :
  snd (fold_left add_widget options st) = (snd st + List.length options)%nat.
Proof.
  revert st. induction options as [|d options IH]; intros [widgets row]; simpl.
  - lia.
  - rewrite IH. simpl. lia.
Qed.

(** The widgets after one more descriptor. *)
Lemma build_widgets_snoc (options : list descriptor) (d : descriptor) :
  build_widgets (options ++ [d])
  = dict_set (build_widgets options) (name d) (new_var d (List.length options)).
Proof.
  unfold build_widgets. rewrite fold_left_app.
  pose proof (add_widget_rows options ([], O)) as Hrow.
  destruct (fold_left add_widget options ([], O)) as [widgets row].
  simpl in *. now subst row.
Qed.

Lemma build_widgets_NoDup (options : list descriptor) :
  NoDup (map fst (build_widgets options)).
Proof.
  induction options as [|d options IH] using rev_ind.
  - constructor.
  - rewrite build_widgets_snoc. now apply dict_set_NoDup.
Qed.

Lemma build_widgets_keys (options : list descriptor) (k : str) :
  In k (map fst (build_widgets options)) <-> In k (map name options).
Proof.
  induction options as [|d options IH] using rev_ind.
  - reflexivity.
  - rewrite build_widgets_snoc, dict_set_keys, map_app, in_app_iff, IH.
    simpl. intuition.
Qed.

(** The variable kept for a name is the one of the last descriptor with it. *)
Lemma build_widgets_last (before after : list descriptor) (d : descriptor) :
  (forall d', In d' after -> name d' <> name d) ->
  dict_get (build_widgets (before ++ d :: after)) (name d)
  = Some (new_var d (List.length before)).
Proof.
  induction after as [|x after IH] using rev_ind; intros Hafter.
  - rewrite build_widgets_snoc. apply dict_get_set_same.
  - replace (before ++ d :: after ++ [x]) with ((before ++ d :: after) ++ [x])
      by (now rewrite <- app_assoc).
    rewrite build_widgets_snoc, dict_get_set_other.
    + apply IH. intros d' Hd'. apply Hafter. apply in_or_app. now left.
    + apply not_eq_sym. apply Hafter. apply in_or_app. right. now left.
Qed.

Lemma add_argument_tokens (f : form) (cmd : list str) (item : str * tkvar) :
  add_argument f cmd item = cmd ++ flat_map tokens (group_of f item).
Proof.
  destruct item as [k [row|row]]; unfold add_argument, group_of; simpl.
  - destruct (checked f row); simpl; [reflexivity | now rewrite app_nil_r].
  - destruct (Py.strip (typed f row)); simpl; [now rewrite app_nil_r | reflexivity].
Qed.

Lemma run_scrcpy_tokens (f : form) (widgets : dict) (cmd : list str) :
  fold_left (add_argument f) widgets cmd
  = cmd ++ flat_map tokens (flat_map (group_of f) widgets).
Proof.
  revert cmd. induction widgets as [|item widgets IH]; intros cmd; simpl.
  - now rewrite app_nil_r.
  - rewrite IH, add_argument_tokens, flat_map_app, app_assoc. reflexivity.
Qed.

Lemma group_of_item (f : form) (item : str * tkvar) (g : str * list str) :
  In g (group_of f item) -> fst g = fst item /\ (List.length (snd g) <= 1)%nat.
Proof.
  destruct item as [k [row|row]]; unfold group_of; simpl.
  - destruct (checked f row); [|contradiction].
    intros [<-|[]]. simpl. split; [reflexivity | lia].
  - destruct (Py.strip (typed f row)); [contradiction|].
    intros [<-|[]]. simpl. split; [reflexivity | lia].
Qed.

(** * More on the extraction loop *)

Lemma loop_app (options : list descriptor) (lines1 lines2 : list str) :
  loop options (lines1 ++ lines2)
  = (options' <- loop options lines1 ;; loop options' lines2).
Proof.
  revert options. induction lines1 as [|line lines1 IH]; intros options; simpl.
  - reflexivity.
  - destruct (loop_body options line) as [options'|e]; simpl; [apply IH | reflexivity].
Qed.

(** The loop only appends to [options]. *)
Lemma loop_appends (options : list descriptor) (lines : list str) :
  loop options lines = (out <- loop [] lines ;; Ok (options ++ out)).
Proof.
  revert options. induction lines as [|line lines IH]; intros options; simpl.
  - now rewrite app_nil_r.
  - rewrite loop_body_appends.
    destruct (loop_body [] line) as [out|e]; simpl; [|reflexivity].
    rewrite (IH (options ++ out)), (IH out).
    destruct (loop [] lines) as [out'|e]; simpl; [|reflexivity].
    now rewrite app_assoc.
Qed.

Lemma loop_raises (options : list descriptor) (lines : list str) (e : exn) :
  loop options lines = Raise e <->
  e = IndexError /\ Exists (fun line => loop_body [] line = Raise IndexError) lines.
Proof.
  revert options. induction lines as [|line lines IH]; intros options; simpl.
  - split; [discriminate|]. intros [_ H]. inversion H.
  - rewrite loop_body_appends.
    destruct (loop_body [] line) as [out|e'] eqn:E; simpl.
    + rewrite IH. split.
      * intros [-> H]. split; [reflexivity | now apply Exists_cons_tl].
      * intros [-> H]. split; [reflexivity|].
        inversion H as [? ? Hhd|? ? Htl]; subst; [congruence | exact Htl].
    + assert (e' = IndexError) by (apply loop_body_raises in E; tauto). subst e'.
      split.
      * intros H. injection H as <-. split; [reflexivity | now apply Exists_cons_hd].
      * now intros [-> _].
Qed.

Lemma lstrip_by_snoc (p : char -> bool) (s : str) (c : char) :
  p c = false -> Py.lstrip_by p (s ++ [c]) = Py.lstrip_by p s ++ [c].
Proof.
  intros Hc. induction s as [|x s IH]; simpl.
  - now rewrite Hc.
  - destruct (p x); [exact IH | reflexivity].
Qed.

Lemma strip_trimmed (s : str) : trimmed (Py.strip s).
Proof.
  unfold Py.strip, Py.strip_by, Py.rstrip_by, trimmed.
  set (t := Py.lstrip_by Py.isspace s).
  assert (Ht : starts_solid t).
  { unfold starts_solid. destruct t as [|c r] eqn:E; [exact I|].
    eapply lstrip_by_head. exact E. }
  split.
  - destruct t as [|c r]; [exact I|]. simpl in Ht. simpl rev.
    rewrite lstrip_by_snoc by exact Ht. rewrite rev_app_distr. exact Ht.
  - rewrite rev_involutive. unfold starts_solid.
    destruct (Py.lstrip_by Py.isspace (rev t)) as [|c r] eqn:E; [exact I|].
    eapply lstrip_by_head. exact E.
Qed.

Lemma lstrip_by_solid (s : str) : starts_solid s -> Py.lstrip_by Py.isspace s = s.
Proof. destruct s as [|c r]; simpl; [reflexivity|]. now intros ->. Qed.

Lemma trimmed_strip (s : str) : trimmed s -> Py.strip s = s.
Proof.
  intros [Hl Hr]. unfold Py.strip, Py.strip_by, Py.rstrip_by.
  rewrite (lstrip_by_solid s Hl), (lstrip_by_solid (rev s) Hr).
  apply rev_involutive.
Qed.

Lemma split_nil_all_space (s : str) : Py.split s = [] -> all_space s.
Proof.
  induction s as [|c r IH]; intros H; [constructor|].
  destruct (Py.isspace c) eqn:Hc.
  - rewrite split_cons, Hc in H. constructor; [exact Hc | now apply IH].
  - destruct (split_solid c r Hc) as (w & ws & E). congruence.
Qed.

Lemma trimmed_no_word (s : str) : trimmed s -> Py.split s = [] -> s = [].
Proof.
  intros [Hl _] H. apply split_nil_all_space in H.
  destruct s as [|c r]; [reflexivity|].
  inversion H; subst. simpl in Hl. congruence.
Qed.

Lemma candidates_trimmed (content p : str) : In p (candidates content) -> trimmed p.
Proof.
  unfold candidates. intros H. apply in_map_iff in H as (x & <- & _).
  apply strip_trimmed.
Qed.

(** X1.  Reading a manpage that is there, [parse_options] raises exactly
    when some line is a flag directive none of whose candidates starts with
    a double hyphen and whose first candidate is empty; the error is then
    [IndexError], wherever the line stands and whatever the other lines are. *)
Theorem parse_options_fails_iff (w : world) (text : str) (e : exn) :
  manpage w = Contents text ->
  (fst (parse_options w) = Raise e <->
   e = IndexError
   /\ exists line c tl,
        In line (Py.splitlines text) /\ match_directive line = Some (B, c)
        /\ flag_candidates c = [] :: tl /\ Forall not_long tl).
Proof.
  intros Hfile. rewrite (parse_options_contents w text Hfile).
  unfold parse_mantext. rewrite loop_raises. split.
  - intros [-> Hex]. split; [reflexivity|].
    apply Exists_exists in Hex as (line & Hin & Hraise).
    apply loop_body_raises in Hraise as (_ & c & p0 & tl & Hm & Hc & Hno & Hs).
    assert (p0 = []).
    { apply trimmed_no_word; [|exact Hs].
      apply candidates_trimmed with (content := Py.strip_chars [dq] (Py.strip (normalize c))).
      fold (flag_candidates c). rewrite Hc. now left. }
    subst p0. exists line, c, tl. inversion Hno; subst. auto.
  - intros (-> & line & c & tl & Hin & Hm & Hc & Hno). split; [reflexivity|].
    apply Exists_exists. exists line. split; [exact Hin|].
    apply loop_body_raises. split; [reflexivity|].
    exists c, [], tl. repeat split; auto. constructor; [reflexivity | exact Hno].
Qed.

Lemma parse_options_fails_iff_witness :
  let text := lit ".B --ok" ++ [newline] ++ lit ".B ,x" ++ [newline] ++ lit ".B --late" in
  manpage (on_disk text) = Contents text
  /\ fst (parse_options (on_disk text)) = Raise IndexError.
Proof.
  intros text. split; [reflexivity|].
  apply (proj2 (parse_options_fails_iff (on_disk text) text IndexError eq_refl)).
  split; [reflexivity|].
  exists (lit ".B ,x"), (lit ",x"), [lit "x"].
  repeat split; try (vm_compute; reflexivity).
  - vm_compute. auto.
  - repeat constructor.
Defined.

Lemma contribution_of_other (line : str) (out : list descriptor) :
  is_directive_line line = false -> loop_body [] line = Ok out -> out = [].
Proof.
  unfold is_directive_line. intros Hd Hout.
  destruct (match_directive line) eqn:Hm; [discriminate|].
  rewrite (other_line [] line Hm) in Hout. congruence.
Qed.

(** X2.  There are at most as many descriptors as there are lines matching
    the line pattern. *)
Theorem descriptor_count_bound (w : world) (text : str) (ds : list descriptor) :
  manpage w = Contents text ->
  fst (parse_options w) = Ok ds ->
  (List.length ds <= List.length (filter is_directive_line (Py.splitlines text)))%nat.
Proof.
  intros Hfile. rewrite (parse_options_contents w text Hfile).
  unfold parse_mantext. intros Hret.
  apply loop_spec in Hret as (per_line & Hc & ->). simpl.
  induction Hc as [|line out lines per_line Hout _ IH]; simpl; [lia|].
  rewrite length_app.
  destruct (is_directive_line line) eqn:Hd; simpl.
  - apply contribution_at_most_one in Hout. lia.
  - rewrite (contribution_of_other line out Hd Hout). simpl. lia.
Qed.

Lemma descriptor_count_bound_witness :
  let text := lit "x" ++ [newline] ++ lit ".B --a" ++ [newline] ++ lit ".BI y" in
  manpage (on_disk text) = Contents text
  /\ fst (parse_options (on_disk text)) = Ok [flag (lit "--a")]
  /\ (List.length [flag (lit "--a")]
      <= List.length (filter is_directive_line (Py.splitlines text)))%nat.
Proof.
  intros text.
  assert (Hret : fst (parse_options (on_disk text)) = Ok [flag (lit "--a")])
    by (vm_compute; reflexivity).
  split; [reflexivity|]. split; [exact Hret|].
  exact (descriptor_count_bound (on_disk text) text _ eq_refl Hret).
Defined.

Lemma loop_directive_lines (options : list descriptor) (lines : list str) :
  loop options lines = loop options (filter is_directive_line lines).
Proof.
  revert options. induction lines as [|line lines IH]; intros options; simpl.
  - reflexivity.
  - unfold is_directive_line at 1.
    destruct (match_directive line) as [[k c]|] eqn:Hm; simpl.
    + destruct (loop_body options line); simpl; [apply IH | reflexivity].
    + rewrite (other_line options line Hm). simpl. apply IH.
Qed.

(** X3.  Only the lines matching the line pattern count: two manpages with
    the same such lines, in the same order, give the same outcome, whatever
    stands between them. *)
Theorem same_directives_same_options (w1 w2 : world) (text1 text2 : str) :
  manpage w1 = Contents text1 ->
  manpage w2 = Contents text2 ->
  filter is_directive_line (Py.splitlines text1)
  = filter is_directive_line (Py.splitlines text2) ->
  fst (parse_options w1) = fst (parse_options w2).
Proof.
  intros H1 H2 Hsame.
  rewrite (parse_options_contents w1 text1 H1), (parse_options_contents w2 text2 H2).
  unfold parse_mantext.
  rewrite (loop_directive_lines [] (Py.splitlines text1)).
  rewrite (loop_directive_lines [] (Py.splitlines text2)).
  now rewrite Hsame.
Qed.

Lemma same_directives_same_options_witness :
  let text1 := lit ".SH OPTIONS" ++ [newline] ++ lit ".B --a" ++ [newline]
               ++ lit "Does a." ++ [newline] ++ lit ".B --b" in
  let text2 := lit ".B --a" ++ [13; newline] ++ lit ".B --b" ++ [newline] in
  filter is_directive_line (Py.splitlines text1)
  = filter is_directive_line (Py.splitlines text2)
  /\ fst (parse_options (on_disk text1)) = fst (parse_options (on_disk text2)).
Proof.
  intros text1 text2.
  assert (Hsame : filter is_directive_line (Py.splitlines text1)
                  = filter is_directive_line (Py.splitlines text2))
    by (vm_compute; reflexivity).
  split; [exact Hsame|].
  exact (same_directives_same_options (on_disk text1) (on_disk text2) text1 text2
           eq_refl eq_refl Hsame).
Defined.

(** * The characters of a name *)

Lemma split_on_pieces (sep : char) (s w : str) :
  In w (Py.split_on sep s) -> ~ In sep w /\ incl w s.
Proof.
  revert w. induction s as [|c r IH]; intros w; simpl.
  - intros [<-|[]]. split; [intros [] | intros x []].
  - destruct (c =? sep) eqn:Hc.
    + intros [<-|Hin].
      * split; [intros [] | intros x []].
      * destruct (IH w Hin) as [Hno Hincl]. split; [exact Hno|].
        intros x Hx. right. now apply Hincl.
    + destruct (Py.split_on sep r) as [|w0 ws] eqn:E.
      * intros [<-|[]]. split.
        -- intros [Heq|[]]. subst c. now rewrite N.eqb_refl in Hc.
        -- intros x [<-|[]]. now left.
      * intros [<-|Hin].
        -- destruct (IH w0 (or_introl eq_refl)) as [Hno Hincl]. split.
           ++ intros [Heq|Hin]; [|contradiction].
              subst c. now rewrite N.eqb_refl in Hc.
           ++ intros x [<-|Hx]; [now left | right; now apply Hincl].
        -- destruct (IH w (or_intror Hin)) as [Hno Hincl]. split; [exact Hno|].
           intros x Hx. right. now apply Hincl.
Qed.

Lemma lstrip_by_incl (p : char -> bool) (s : str) : incl (Py.lstrip_by p s) s.
Proof.
  induction s as [|c r IH]; simpl; [intros x []|].
  destruct (p c); [|apply incl_refl].
  intros x Hx. right. now apply IH.
Qed.

Lemma strip_by_incl (p : char -> bool) (s : str) : incl (Py.strip_by p s) s.
Proof.
  unfold Py.strip_by, Py.rstrip_by. intros x Hx.
  apply in_rev in Hx. apply lstrip_by_incl in Hx. apply in_rev in Hx.
  now apply lstrip_by_incl in Hx.
Qed.

Lemma first_word_incl (p w : str) : first_word p w -> incl w p.
Proof.
  intros (ws & rest & -> & _). intros x Hx.
  apply in_or_app. right. apply in_or_app. now left.
Qed.

Lemma replace_from_chars (old new : str) (skip : nat) (s : str) (x : char) :
  In x (Py.replace_from old new skip s) -> In x s \/ In x new.
Proof.
  revert skip. induction s as [|c r IH]; intros skip; simpl; [intros []|].
  destruct skip as [|k].
  - destruct (Py.startswith old (c :: r)).
    + intros Hx. apply in_app_or in Hx as [Hx|Hx]; [now right|].
      destruct (IH _ Hx); auto.
    + intros [<-|Hx]; [left; now left|]. destruct (IH _ Hx); auto.
  - intros Hx. destruct (IH _ Hx); auto.
Qed.

Lemma candidates_chars (content p : str) :
  In p (candidates content) -> ~ In comma p /\ incl p content.
Proof.
  unfold candidates. intros H. apply in_map_iff in H as (piece & <- & Hpiece).
  apply split_on_pieces in Hpiece as [Hno Hincl]. split.
  - intros Hin. apply Hno. now apply (strip_by_incl Py.isspace piece).
  - intros x Hx. apply Hincl. now apply (strip_by_incl Py.isspace piece).
Qed.

(** Where a returned descriptor comes from. *)
Lemma returned_descriptor_effect (w : world) (ds : list descriptor) (d : descriptor) :
  fst (parse_options w) = Ok ds -> In d ds ->
  exists text line,
    manpage w = Contents text /\ In line (Py.splitlines text)
    /\ line_effect line (Ok [d]).
Proof.
  intros Hret Hin.
  apply parse_options_returns in Hret as [[_ ->]|(text & Hfile & Hparse)];
    [contradiction|].
  unfold parse_mantext in Hparse.
  apply loop_spec in Hparse as (per_line & Hc & ->).
  destruct (contributions_In _ _ _ Hc Hin) as (line & out & Hline & Hout & Hd).
  exists text, line. split; [exact Hfile|]. split; [exact Hline|].
  pose proof (contribution_at_most_one line out Hout) as Hlen.
  pose proof (loop_body_effect line) as He. rewrite Hout in He.
  destruct out as [|x [|y out]]; simpl in Hlen; [contradiction | | lia].
  destruct Hd as [->|[]]. exact He.
Qed.

(** X4.  No name returned by [parse_options] contains a comma.  The name of
    a descriptor with [has_value] true contains no double quote either, and
    has no whitespace at its ends: stripping it changes nothing. *)
Theorem names_are_clean (w : world) (ds : list descriptor) (d : descriptor) :
  fst (parse_options w) = Ok ds -> In d ds ->
  ~ In comma (name d)
  /\ (has_value d = true -> ~ In dq (name d) /\ Py.strip (name d) = name d).
Proof.
  intros Hret Hin.
  destruct (returned_descriptor_effect w ds d Hret Hin) as (text & line & _ & _ & He).
  assert (Hvalue : forall c g p,
             match_quoted (Py.strip (normalize c)) = Some g ->
             In p (value_candidates g) ->
             ~ In comma p /\ ~ In dq p /\ Py.strip p = p).
  { intros c g p Hq Hp. apply match_quoted_spec in Hq as (rest & _ & _ & Hg).
    pose proof (candidates_trimmed _ _ Hp) as Ht.
    apply candidates_chars in Hp as [Hno Hincl].
    split; [exact Hno|]. split; [|now apply trimmed_strip].
    intros Hdq. apply Hincl in Hdq. unfold normalize, Py.replace in Hdq.
    apply replace_from_chars in Hdq as [Hdq|[Hdq|[]]]; [contradiction | discriminate]. }
  inversion He as
    [ | c p wd Hm Hp Hw | c p0 tl wd Hm Hcs Hno Hw | |
      | c g p Hm Hq Hp | c g p0 tl Hm Hq Hcs Hno ]; subst; simpl.
  - split; [|discriminate]. intros Hin'.
    apply (first_word_incl _ _ Hw) in Hin'.
    apply first_long_In in Hp. now apply candidates_chars in Hp as [Hnc _].
  - split; [|discriminate]. intros Hin'.
    apply (first_word_incl _ _ Hw) in Hin'.
    assert (Hp : In p0 (flag_candidates c)) by (rewrite Hcs; now left).
    now apply candidates_chars in Hp as [Hnc _].
  - apply first_long_In in Hp.
    destruct (Hvalue c g p Hq Hp) as (H1 & H2 & H3). auto.
  - assert (Hp : In p0 (value_candidates g)) by (rewrite Hcs; now left).
    destruct (Hvalue c g p0 Hq Hp) as (H1 & H2 & H3). auto.
Qed.

Lemma names_are_clean_witness :
  let w := on_disk (lit ".BI " ++ [dq] ++ lit "-m, \-\-max\-size " ++ [dq] ++ lit "value") in
  let d := valued (lit "--max-size") in
  fst (parse_options w) = Ok [d] /\ In d [d]
  /\ ~ In comma (name d)
  /\ (has_value d = true -> ~ In dq (name d) /\ Py.strip (name d) = name d).
Proof.
  intros w d.
  assert (Hret : fst (parse_options w) = Ok [d]) by (vm_compute; reflexivity).
  assert (Hin : In d [d]) by (left; reflexivity).
  split; [exact Hret|]. split; [exact Hin|].
  exact (names_are_clean w [d] d Hret Hin).
Defined.

(** * The long spelling *)

Lemma is_long_iff (p : str) :
  is_long p = true <-> exists r, p = hyphen :: hyphen :: r.
Proof.
  unfold is_long. split.
  - destruct p as [|a [|b r]]; cbn [Py.startswith].
    + discriminate.
    + rewrite andb_false_r. discriminate.
    + intros H. apply andb_true_iff in H as [Ha H].
      apply andb_true_iff in H as [Hb _].
      apply N.eqb_eq in Ha, Hb. subst a b. now exists r.
  - intros (r & ->). reflexivity.
Qed.

Lemma first_word_long (p w : str) :
  is_long p = true -> first_word p w -> is_long w = true.
Proof.
  intros Hp (ws & rest & E & Hws & Hne & Hns & Hrest).
  apply is_long_iff in Hp as (r & ->).
  destruct ws as [|b ws].
  - simpl in E. destruct w as [|a [|b w']]; [contradiction| |].
    + simpl in E. injection E as <- <-. simpl in Hrest. discriminate.
    + simpl in E. injection E as <- <- _. apply is_long_iff. now eexists.
  - simpl in E. injection E as <- _. inversion Hws; subst. discriminate.
Qed.

Lemma some_long_first_long (parts : list str) :
  Exists (fun p => is_long p = true) parts -> exists p, first_long parts p.
Proof.
  intros Hex. destruct (long_or_not parts) as [H|Hno]; [exact H|].
  apply Exists_exists in Hex as (p & Hin & Hp).
  apply (proj1 (Forall_forall _ _) Hno) in Hin. unfold not_long in Hin. congruence.
Qed.

(** X5.  Whenever one of the candidates of a directive starts with a double
    hyphen, the name of the descriptor the line yields starts with a double
    hyphen: the long spelling wins over a short one listed before it, for
    flag and value directives alike. *)
Theorem long_spelling_preferred (options : list descriptor) (line c : str) :
  (match_directive line = Some (B, c) ->
   Exists (fun p => is_long p = true) (flag_candidates c) ->
   exists n, is_long n = true /\ loop_body options line = Ok (options ++ [flag n]))
  /\ (forall g,
        match_directive line = Some (BI, c) ->
        leading_quoted (Py.strip (normalize c)) g ->
        Exists (fun p => is_long p = true) (value_candidates g) ->
        exists n, is_long n = true
                  /\ loop_body options line = Ok (options ++ [valued n])).
Proof.
  split.
  - intros Hm Hex. apply some_long_first_long in Hex as (p & Hp).
    destruct (flag_line_long options line c p Hm Hp) as (n & Hn & Hbody).
    exists n. split; [|exact Hbody].
    destruct Hp as (_ & _ & _ & _ & Hlong). eapply first_word_long; eassumption.
  - intros g Hm Hg Hex. apply some_long_first_long in Hex as (p & Hp).
    apply match_quoted_spec in Hg.
    destruct (value_line_quoted options line c g Hm Hg) as [Hlong _].
    exists p. split; [|now apply Hlong].
    now destruct Hp as (_ & _ & _ & _ & Hp).
Qed.

Lemma long_spelling_preferred_witness :
  let line := lit ".B -f, \-\-fullscreen" in
  let c := lit "-f, \-\-fullscreen" in
  match_directive line = Some (B, c)
  /\ Exists (fun p => is_long p = true) (flag_candidates c)
  /\ exists n, is_long n = true /\ loop_body [] line = Ok ([] ++ [flag n]).
Proof.
  intros line c.
  assert (Hm : match_directive line = Some (B, c)) by (vm_compute; reflexivity).
  assert (Hex : Exists (fun p => is_long p = true) (flag_candidates c)).
  { apply Exists_exists. exists (lit "--fullscreen"). split.
    - vm_compute. auto.
    - reflexivity. }
  split; [exact Hm|]. split; [exact Hex|].
  exact (proj1 (long_spelling_preferred [] line c) Hm Hex).
Defined.

(** * Joining two documents *)

Lemma splitlines_from_cons (line : str) (c : char) (r : str) :
  Py.splitlines_from line (c :: r) =
  if Py.islinebreak c then
    rev line ::
      match r with
      | c' :: r' =>
          if (c =? 13) && (c' =? 10) then Py.splitlines_from [] r'
          else Py.splitlines_from [] r
      | [] => Py.splitlines_from [] r
      end
  else Py.splitlines_from (c :: line) r.
Proof. reflexivity. Qed.

(** The lines of two texts joined by a line feed: the lines of the first,
    those of the second, and at most one empty line between them. *)
Lemma splitlines_join (a b : str) (line : str) :
  exists extra,
    Forall (fun l => l = []) extra
    /\ Py.splitlines_from line (a ++ newline :: b)
       = Py.splitlines_from line a ++ extra ++ Py.splitlines b.
Proof.
  remember (List.length a) as n eqn:Hn.
  revert a line Hn. induction n as [n IH] using lt_wf_ind. intros a line Hn.
  destruct a as [|c r].
  - simpl app. rewrite splitlines_from_cons.
    replace (Py.islinebreak newline) with true by reflexivity.
    replace (newline =? 13) with false by reflexivity. cbn [andb].
    destruct line as [|x line]; [exists [[]] | exists []];
      (split; [repeat constructor|]); now destruct b.
  - change ((c :: r) ++ newline :: b) with (c :: (r ++ newline :: b)).
    rewrite !splitlines_from_cons.
    destruct (Py.islinebreak c) eqn:Hc.
    + destruct r as [|c' r'].
      * simpl app. destruct (c =? 13) eqn:H13; cbn [andb].
        -- change (newline =? 10) with true. cbv iota.
           exists []. split; [constructor | reflexivity].
        -- destruct (IH O ltac:(subst n; simpl; lia) [] [] eq_refl)
             as (extra & Hextra & E).
           simpl app in E. rewrite E. exists extra. split; [exact Hextra|].
           reflexivity.
      * cbn [app]. cbv iota.
        destruct ((c =? 13) && (c' =? 10)).
        -- destruct (IH (List.length r') ltac:(subst n; simpl; lia) r' [] eq_refl)
             as (extra & Hextra & E).
           rewrite E. exists extra. split; [exact Hextra | reflexivity].
        -- destruct (IH (List.length (c' :: r')) ltac:(subst n; simpl; lia)
                       (c' :: r') [] eq_refl) as (extra & Hextra & E).
           cbn [app] in E. rewrite E. exists extra.
           split; [exact Hextra | reflexivity].
    + destruct (IH (List.length r) ltac:(subst n; simpl; lia) r (c :: line) eq_refl)
        as (extra & Hextra & E).
      rewrite E. exists extra. split; [exact Hextra | reflexivity].
Qed.

Lemma loop_empty_lines (options : list descriptor) (extra : list str) :
  Forall (fun l => l = []) extra -> loop options extra = Ok options.
Proof.
  induction 1 as [|l extra -> _ IH]; simpl; [reflexivity | exact IH].
Qed.

(** X6.  Extraction goes document by document: for two texts joined by a
    line feed, [parse_options] returns the descriptors of the first followed
    by those of the second, and raises if either of them does. *)
Theorem documents_compose (w wa wb : world) (a b : str) :
  manpage w = Contents (a ++ newline :: b) ->
  manpage wa = Contents a ->
  manpage wb = Contents b ->
  fst (parse_options w)
  = then_extract (fst (parse_options wa)) (fst (parse_options wb)).
Proof.
  intros Hw Ha Hb.
  rewrite (parse_options_contents _ _ Hw), (parse_options_contents _ _ Ha),
    (parse_options_contents _ _ Hb).
  unfold parse_mantext, Py.splitlines, then_extract.
  destruct (splitlines_join a b []) as (extra & Hextra & ->).
  rewrite loop_app.
  destruct (loop [] (Py.splitlines_from [] a)) as [ds1|e]; simpl; [|reflexivity].
  rewrite loop_app, (loop_empty_lines ds1 extra Hextra). simpl.
  fold (Py.splitlines b). apply loop_appends.
Qed.

Lemma documents_compose_witness :
  let a := lit ".B --a" ++ [newline] in
  let b := lit ".BI " ++ [dq] ++ lit "--b " ++ [dq] ++ lit "n" in
  manpage (on_disk (a ++ newline :: b)) = Contents (a ++ newline :: b)
  /\ fst (parse_options (on_disk (a ++ newline :: b)))
     = then_extract (fst (parse_options (on_disk a))) (fst (parse_options (on_disk b)))
  /\ then_extract (fst (parse_options (on_disk a))) (fst (parse_options (on_disk b)))
     = Ok [flag (lit "--a"); valued (lit "--b")].
Proof.
  intros a b. split; [reflexivity|]. split.
  - exact (documents_compose (on_disk (a ++ newline :: b)) (on_disk a) (on_disk b)
             a b eq_refl eq_refl eq_refl).
  - vm_compute. reflexivity.
Defined.

(** * More on [main] *)

Lemma parse_options_errors (w : world) (e : exn) :
  fst (parse_options w) = Raise e ->
  e = IndexError \/ e = OSError \/ e = UnicodeDecodeError.
Proof.
  unfold parse_options. destruct (manpage w) as [| | |text]; simpl.
  - discriminate.
  - intros H. injection H as <-. auto.
  - intros H. injection H as <-. auto.
  - unfold parse_mantext. intros H. apply loop_raises in H as [-> _]. auto.
Qed.

Lemma parse_options_run (w : world) : parse_options w = (fst (parse_options w), w).
Proof.
  rewrite (surjective_pairing (parse_options w)) at 1.
  now rewrite parse_options_world.
Qed.

Lemma build_widgets_nonempty (d : descriptor) (ds : list descriptor) :
  build_widgets (d :: ds) <> [].
Proof.
  intros E.
  assert (H : In (name d) (map fst (build_widgets (d :: ds))))
    by (apply build_widgets_keys; now left).
  now rewrite E in H.
Qed.

Lemma snoc_differs (A : Type) (l : list A) (x : A) : l ++ [x] <> l.
Proof.
  intros E. apply (f_equal (@List.length A)) in E.
  rewrite length_app in E. simpl in E. lia.
Qed.

(** C8, amended.  If [parse_options] returns the empty sequence, [main]
    prints the error message and ends with exit status 1, without building
    the form.  It is the only condition [main] itself escalates: the message
    is printed, and [SystemExit] raised, in no other run.  A non-empty
    sequence is handed to [build_gui] with nothing printed, and the run then
    ends normally when Tk has a display and on the uncaught [TclError] when
    it has none.  An error raised inside [parse_options] is not caught by
    [main] and ends the run as it is. *)
Theorem main_fails_on_empty (w : world) :
  (fst (parse_options w) = Ok [] ->
   main w = (Raise (SystemExit 1),
             {| manpage := manpage w; stderr := stderr w ++ [could_not_parse];
                gui := gui w; display := display w |}))
  /\ (forall ds,
        fst (parse_options w) = Ok ds -> ds <> [] ->
        (display w = true ->
         main w = (Ok tt,
                   {| manpage := manpage w; stderr := stderr w;
                      gui := Some (build_widgets ds); display := display w |}))
        /\ (display w = false -> main w = (Raise TclError, w)))
  /\ (forall e, fst (parse_options w) = Raise e -> main w = (Raise e, w))
  /\ (fst (main w) = Raise (SystemExit 1) <-> fst (parse_options w) = Ok [])
  /\ (stderr (snd (main w)) <> stderr w <-> fst (parse_options w) = Ok []).
Proof.
  unfold main, bindM, build_gui. rewrite (parse_options_run w).
  destruct (fst (parse_options w)) as [[|d ds]|e] eqn:E; simpl.
  - repeat split; try congruence; try discriminate.
    intros _. apply snoc_differs.
  - destruct (display w) eqn:Hd; simpl; repeat split;
      try congruence; try discriminate.
  - repeat split; try congruence; try discriminate.
    intros H. injection H as ->.
    apply parse_options_errors in E as [E|[E|E]]; discriminate E.
Qed.

Lemma main_fails_on_empty_witness :
  let w := on_disk (lit ".SH OPTIONS") in
  fst (parse_options w) = Ok []
  /\ main w = (Raise (SystemExit 1),
               {| manpage := manpage w; stderr := stderr w ++ [could_not_parse];
                  gui := gui w; display := display w |}).
Proof.
  intros w.
  assert (Hret : fst (parse_options w) = Ok []) by (vm_compute; reflexivity).
  split; [exact Hret|].
  exact (proj1 (main_fails_on_empty w) Hret).
Defined.

(** X7.  [main] ends with exit status 0 or 1.  It is 0 exactly when
    [parse_options] returns at least one descriptor and Tk has a display;
    the form then shown has at least one widget and nothing is printed.  In
    all other runs (an empty result, an error raised by [parse_options], no
    display for Tk) the status is 1 and no form is shown. *)
Theorem main_exit_status (w : world) :
  (exit_status (fst (main w)) = 0%Z
   /\ display w = true
   /\ exists ds,
        ds <> [] /\ fst (parse_options w) = Ok ds
        /\ snd (main w) = {| manpage := manpage w; stderr := stderr w;
                             gui := Some (build_widgets ds);
                             display := display w |}
        /\ build_widgets ds <> [])
  \/ (exit_status (fst (main w)) = 1%Z
      /\ ((forall ds, fst (parse_options w) = Ok ds -> ds = [])
          \/ display w = false)
      /\ manpage (snd (main w)) = manpage w
      /\ gui (snd (main w)) = gui w).
Proof.
  unfold main, bindM, build_gui. rewrite (parse_options_run w).
  destruct (fst (parse_options w)) as [[|d ds]|e] eqn:E; simpl.
  - right. repeat split. left. intros ds H. now injection H as <-.
  - destruct (display w) eqn:Hd; simpl.
    + left. split; [reflexivity|]. split; [reflexivity|].
      exists (d :: ds). repeat split.
      * discriminate.
      * apply build_widgets_nonempty.
    + right. repeat split. now right.
  - right. repeat split.
    + apply parse_options_errors in E as [->|[->| ->]]; reflexivity.
    + left. discriminate.
Qed.

(** X8.  With no manpage, or with a manpage none of whose lines matches the
    line pattern, [main] prints its message on the standard error stream and
    exits with status 1, without showing the form. *)
Theorem main_without_options_fails (w : world) :
  manpage w = Missing
  \/ (exists text, manpage w = Contents text
                   /\ filter is_directive_line (Py.splitlines text) = []) ->
  main w = (Raise (SystemExit 1),
            {| manpage := manpage w; stderr := stderr w ++ [could_not_parse];
               gui := gui w; display := display w |}).
Proof.
  intros H.
  assert (Hret : fst (parse_options w) = Ok []).
  { destruct H as [Hmiss|(text & Hfile & Hnone)].
    - now apply parse_options_missing.
    - rewrite (parse_options_contents w text Hfile). unfold parse_mantext.
      now rewrite loop_directive_lines, Hnone. }
  unfold main, bindM. rewrite (parse_options_run w), Hret. reflexivity.
Qed.

Lemma main_without_options_fails_witness :
  let w := {| manpage := Missing; stderr := [lit "warning"]; gui := None;
              display := true |} in
  manpage w = Missing
  /\ main w = (Raise (SystemExit 1),
               {| manpage := Missing; stderr := [lit "warning"; could_not_parse];
                  gui := None; display := true |}).
Proof.
  intros w. split; [reflexivity|].
  exact (main_without_options_fails w (or_introl eq_refl)).
Defined.

(** * More on the widgets *)

Lemma str_eqb_sym (a b : str) : str_eqb a b = str_eqb b a.
Proof.
  destruct (str_eqb a b) eqn:E.
  - apply str_eqb_eq in E. subst. now rewrite str_eqb_refl.
  - apply str_eqb_neq in E. symmetry. apply str_eqb_neq. congruence.
Qed.

Lemma has_key_In (keys : list str) (k : str) : has_key keys k = true <-> In k keys.
Proof.
  unfold has_key. rewrite existsb_exists. split.
  - intros (x & Hx & E). apply str_eqb_eq in E. now subst.
  - intros H. exists k. split; [exact H | apply str_eqb_refl].
Qed.

Lemma dict_set_keys_eq (d : dict) (k : str) (v : tkvar) :
  map fst (dict_set d k v)
  = if has_key (map fst d) k then map fst d else map fst d ++ [k].
Proof.
  induction d as [|[k' v'] d IH]; simpl; [reflexivity|].
  destruct (str_eqb k' k); simpl; [reflexivity|].
  rewrite IH. now destruct (has_key (map fst d) k).
Qed.

Lemma filter_filter (A : Type) (p q : A -> bool) (l : list A) :
  filter p (filter q l) = filter (fun x => q x && p x) l.
Proof.
  induction l as [|x l IH]; simpl; [reflexivity|].
  destruct (q x); simpl; [|exact IH]. destruct (p x); now rewrite IH.
Qed.

Lemma fold_add_widget_keys (options : list descriptor) (widgets : dict) (row : nat) :
  map fst (fst (fold_left add_widget options (widgets, row)))
  = map fst widgets
    ++ filter (fun x => negb (has_key (map fst widgets) x))
         (first_occurrences (map name options)).
Proof.
  revert widgets row. induction options as [|opt options IH]; intros widgets row.
  - simpl. now rewrite app_nil_r.
  - cbn [fold_left add_widget map first_occurrences filter].
    rewrite IH, dict_set_keys_eq, filter_filter.
    destruct (has_key (map fst widgets) (name opt)) eqn:Hk; cbn [negb].
    + f_equal. apply filter_ext. intros x.
      destruct (str_eqb x (name opt)) eqn:E; [|reflexivity].
      apply str_eqb_eq in E. subst x. now rewrite Hk.
    + rewrite <- app_assoc. cbn [app]. do 2 f_equal.
      apply filter_ext. intros x. unfold has_key. rewrite existsb_app. simpl.
      rewrite orb_false_r, negb_orb, (str_eqb_sym (name opt) x).
      apply andb_comm.
Qed.

(** X9.  The keys of [widgets], in the order in which [run_scrcpy] goes
    through them, are the option names in the order of their first
    occurrence among the descriptors. *)
Theorem widget_keys_in_first_occurrence_order (options : list descriptor) :
  map fst (build_widgets options) = first_occurrences (map name options).
Proof.
  unfold build_widgets. rewrite fold_add_widget_keys. simpl.
  induction (first_occurrences (map name options)) as [|k l IH]; simpl;
    [reflexivity | now rewrite IH].
Qed.

(** X10.  There are at most as many widgets in [widgets] as descriptors,
    and exactly as many when, and only when, no two descriptors share a name. *)
Theorem widget_count (options : list descriptor) :
  (List.length (build_widgets options) <= List.length options)%nat
  /\ (List.length (build_widgets options) = List.length options
      <-> NoDup (map name options)).
Proof.
  pose proof (build_widgets_NoDup options) as Hnd.
  assert (Hin : incl (map fst (build_widgets options)) (map name options))
    by (intros k Hk; now apply build_widgets_keys).
  assert (Hni : incl (map name options) (map fst (build_widgets options)))
    by (intros k Hk; now apply build_widgets_keys).
  pose proof (NoDup_incl_length Hnd Hin) as Hle.
  rewrite !length_map in Hle. split; [exact Hle|]. split.
  - intros Hlen. apply (NoDup_incl_NoDup Hnd); [|exact Hin].
    rewrite !length_map. lia.
  - intros Hnames. pose proof (NoDup_incl_length Hnames Hni) as Hge.
    rewrite !length_map in Hge. lia.
Qed.

Lemma dict_set_absent (d : dict) (k : str) (v : tkvar) :
  ~ In k (map fst d) -> dict_set d k v = d ++ [(k, v)].
Proof.
  induction d as [|[k' v'] d IH]; simpl; intros Hk; [reflexivity|].
  destruct (str_eqb k' k) eqn:E.
  - apply str_eqb_eq in E. exfalso. apply Hk. now left.
  - rewrite IH; [reflexivity|]. intros Hin. apply Hk. now right.
Qed.

Lemma fold_add_widget_distinct (options : list descriptor) (widgets : dict) (row : nat) :
  NoDup (map fst widgets ++ map name options) ->
  fst (fold_left add_widget options (widgets, row)) = widgets ++ numbered row options.
Proof.
  revert widgets row. induction options as [|opt options IH]; intros widgets row Hnd.
  - simpl. now rewrite app_nil_r.
  - cbn [fold_left add_widget numbered].
    cbn [map] in Hnd.
    assert (Hk : ~ In (name opt) (map fst widgets)).
    { apply NoDup_remove_2 in Hnd. intros Hin. apply Hnd.
      apply in_or_app. now left. }
    rewrite (dict_set_absent widgets _ _ Hk), IH.
    + now rewrite <- app_assoc.
    + rewrite map_app, <- app_assoc. exact Hnd.
Qed.

(** X11.  When no two descriptors share a name, [widgets] has one entry per
    descriptor, in the order of the descriptors, each holding the variable
    made for the row of its descriptor. *)
Theorem widgets_of_distinct_names (options : list descriptor) :
  NoDup (map name options) -> build_widgets options = numbered 0 options.
Proof.
  intros Hnd. unfold build_widgets.
  now rewrite fold_add_widget_distinct.
Qed.

Lemma widgets_of_distinct_names_witness :
  let options := [flag (lit "--a"); valued (lit "--b"); flag (lit "-c")] in
  NoDup (map name options)
  /\ build_widgets options
     = [(lit "--a", BooleanVar 0); (lit "--b", StringVar 1); (lit "-c", BooleanVar 2)].
Proof.
  intros options.
  assert (Hnd : NoDup (map name options)).
  { repeat constructor; simpl; intros H;
      repeat destruct H as [H|H]; try discriminate H; exact H. }
  split; [exact Hnd|].
  exact (widgets_of_distinct_names options Hnd).
Defined.

Lemma last_occurrence (options : list descriptor) (k : str) :
  In k (map name options) ->
  exists before d after,
    options = before ++ d :: after /\ name d = k
    /\ forall d', In d' after -> name d' <> k.
Proof.
  induction options as [|opt options IH]; simpl; [intros []|].
  intros Hin.
  destruct (in_dec (list_eq_dec N.eq_dec) k (map name options)) as [Hlater|Hno].
  - destruct (IH Hlater) as (before & d & after & -> & Hd & Hafter).
    now exists (opt :: before), d, after.
  - destruct Hin as [Hk|Hin]; [|contradiction].
    exists [], opt, options. repeat split; auto.
    intros d' Hd' E. apply Hno. rewrite <- E. now apply in_map.
Qed.

Lemma dict_get_In (d : dict) (k : str) (v : tkvar) :
  NoDup (map fst d) -> In (k, v) d -> dict_get d k = Some v.
Proof.
  induction d as [|[k' v'] d IH]; simpl; intros Hnd Hin; [contradiction|].
  inversion Hnd as [|? ? Hnotin Hnd']; subst.
  destruct Hin as [E|Hin].
  - injection E as -> ->. now rewrite str_eqb_refl.
  - destruct (str_eqb k' k) eqn:E.
    + apply str_eqb_eq in E. subst k'. exfalso. apply Hnotin.
      apply in_map_iff. now exists (k, v).
    + now apply IH.
Qed.

Lemma new_var_row (d : descriptor) (row : nat) : var_row (new_var d row) = row.
Proof. unfold new_var. now destruct (has_value d). Qed.

(** Where an entry of [widgets] comes from. *)
Lemma widget_origin (options : list descriptor) (k : str) (v : tkvar) :
  In (k, v) (build_widgets options) ->
  exists before d after,
    options = before ++ d :: after /\ name d = k
    /\ (forall d', In d' after -> name d' <> k)
    /\ v = new_var d (List.length before).
Proof.
  intros Hin.
  assert (Hk : In k (map name options)).
  { apply build_widgets_keys. apply in_map_iff. now exists (k, v). }
  destruct (last_occurrence options k Hk) as (before & d & after & -> & Hd & Hafter).
  exists before, d, after. repeat split; auto.
  apply (dict_get_In _ _ _ (build_widgets_NoDup _)) in Hin.
  subst k. rewrite build_widgets_last in Hin by exact Hafter. congruence.
Qed.

Lemma same_length_prefix (A : Type) (l1 l2 r1 r2 : list A) :
  l1 ++ r1 = l2 ++ r2 -> List.length l1 = List.length l2 -> l1 = l2 /\ r1 = r2.
Proof.
  revert l2. induction l1 as [|x l1 IH]; intros [|y l2]; simpl; try discriminate.
  - auto.
  - intros E Hlen. injection E as -> E. injection Hlen as Hlen.
    destruct (IH _ E Hlen) as [-> ->]. auto.
Qed.

Lemma NoDup_map_through (A K V : Type) (fk : A -> K) (fv : A -> V) (l : list A) :
  NoDup (map fk l) ->
  (forall x y, In x l -> In y l -> fv x = fv y -> fk x = fk y) ->
  NoDup (map fv l).
Proof.
  induction l as [|x l IH]; simpl; intros Hnd Hinj; [constructor|].
  inversion Hnd as [|? ? Hnotin Hnd']; subst. constructor.
  - intros Hin. apply in_map_iff in Hin as (y & Hy & Hyl).
    apply Hnotin. rewrite <- (Hinj y x (or_intror Hyl) (or_introl eq_refl) Hy).
    now apply in_map.
  - apply IH; [exact Hnd'|]. intros a b Ha Hb. apply Hinj; now right.
Qed.

(** X12.  Every entry of [widgets] holds the variable made for the last
    descriptor with its name, of the kind that descriptor asks for; and no
    variable is stored under two names. *)
Theorem stored_variables (options : list descriptor) :
  (forall k v,
      In (k, v) (build_widgets options) ->
      exists before d after,
        options = before ++ d :: after /\ name d = k
        /\ (forall d', In d' after -> name d' <> k)
        /\ v = (if has_value d then StringVar (List.length before)
                else BooleanVar (List.length before)))
  /\ NoDup (map snd (build_widgets options)).
Proof.
  split.
  - intros k v Hin. now apply widget_origin.
  - apply NoDup_map_through with (fk := fst); [apply build_widgets_NoDup|].
    intros [k1 v1] [k2 v2] H1 H2. simpl. intros <-.
    destruct (widget_origin _ _ _ H1) as (b1 & d1 & a1 & E1 & Hd1 & _ & Hv1).
    destruct (widget_origin _ _ _ H2) as (b2 & d2 & a2 & E2 & Hd2 & _ & Hv2).
    assert (Hlen : List.length b1 = List.length b2).
    { pose proof (f_equal var_row Hv2) as Hrow. rewrite Hv1 in Hrow at 1.
      now rewrite !new_var_row in Hrow. }
    rewrite E1 in E2.
    destruct (same_length_prefix _ _ _ _ _ E2 Hlen) as [_ E]. congruence.
Qed.

Lemma stored_variables_witness :
  let options := [flag (lit "--a"); valued (lit "--a")] in
  In (lit "--a", StringVar 1) (build_widgets options)
  /\ exists before d after,
       options = before ++ d :: after /\ name d = lit "--a"
       /\ (forall d', In d' after -> name d' <> lit "--a")
       /\ StringVar 1 = (if has_value d then StringVar (List.length before)
                         else BooleanVar (List.length before)).
Proof.
  intros options.
  assert (Hin : In (lit "--a", StringVar 1) (build_widgets options))
    by (left; reflexivity).
  split; [exact Hin|].
  exact (proj1 (stored_variables options) _ _ Hin).
Defined.

(** * The grid *)

Lemma add_row_widgets (options : list descriptor) (widgets : dict) (row : nat)
      (grid : list gridded) :
  fst (fold_left add_row options (widgets, row, grid))
  = fold_left add_widget options (widgets, row).
Proof.
  revert widgets row grid.
  induction options as [|opt options IH]; intros widgets row grid; [reflexivity|].
  cbn [fold_left]. unfold add_row at 2, add_widget at 2, new_var.
  destruct (has_value opt); apply IH.
Qed.

Lemma add_row_cells (options : list descriptor) (widgets : dict) (row : nat)
      (grid : list gridded) :
  flat_map cells (snd (fold_left add_row options (widgets, row, grid)))
  = flat_map cells grid ++ flat_map row_cells (seq row (List.length options)).
Proof.
  revert widgets row grid.
  induction options as [|opt options IH]; intros widgets row grid.
  - simpl. now rewrite app_nil_r.
  - cbn [fold_left List.length seq flat_map]. unfold add_row at 2.
    destruct (has_value opt); rewrite IH, flat_map_app, <- app_assoc; reflexivity.
Qed.

Lemma add_row_inputs (options : list descriptor) (widgets : dict) (row : nat)
      (grid : list gridded) :
  flat_map input_var (snd (fold_left add_row options (widgets, row, grid)))
  = flat_map input_var grid ++ map snd (numbered row options).
Proof.
  revert widgets row grid.
  induction options as [|opt options IH]; intros widgets row grid.
  - simpl. now rewrite app_nil_r.
  - cbn [fold_left numbered map snd]. unfold add_row at 2, new_var.
    destruct (has_value opt); rewrite IH, flat_map_app, <- app_assoc; reflexivity.
Qed.

Lemma row_cells_rows (first n r c : nat) :
  In (r, c) (flat_map row_cells (seq first n)) ->
  (first <= r < first + n)%nat /\ (c < 2)%nat.
Proof.
  intros H. apply in_flat_map in H as (row & Hrow & Hcell).
  apply in_seq in Hrow.
  destruct Hcell as [E|[E|[]]]; injection E as <- <-; lia.
Qed.

Lemma row_cells_NoDup (first n : nat) : NoDup (flat_map row_cells (seq first n)).
Proof.
  revert first. induction n as [|n IH]; intros first; simpl; [constructor|].
  constructor; [|constructor; [|apply IH]].
  - intros [E|Hin]; [discriminate|]. apply row_cells_rows in Hin. lia.
  - intros Hin. apply row_cells_rows in Hin. lia.
Qed.

(** X13.  The loop of [build_gui] builds the dictionary [widgets] studied
    above, uses one grid row per descriptor, and the controls it puts on the
    grid cover the two columns of these rows exactly, row after row, no cell
    being covered twice. *)
Theorem form_tiles_grid (options : list descriptor) :
  fst (fst (build_form options)) = build_widgets options
  /\ snd (fst (build_form options)) = List.length options
  /\ flat_map cells (snd (build_form options))
     = flat_map row_cells (seq 0 (List.length options))
  /\ NoDup (flat_map cells (snd (build_form options))).
Proof.
  unfold build_form.
  assert (Hcells : flat_map cells (snd (fold_left add_row options ([], O, [])))
                   = flat_map row_cells (seq 0 (List.length options)))
    by (now rewrite add_row_cells).
  repeat split.
  - now rewrite add_row_widgets.
  - rewrite add_row_widgets, add_widget_rows. reflexivity.
  - exact Hcells.
  - rewrite Hcells. apply row_cells_NoDup.
Qed.

Lemma numbered_app (row : nat) (l1 l2 : list descriptor) :
  numbered row (l1 ++ l2) = numbered row l1 ++ numbered (row + List.length l1) l2.
Proof.
  revert row. induction l1 as [|d l1 IH]; intros row; simpl.
  - now rewrite Nat.add_0_r.
  - rewrite IH. do 3 f_equal. lia.
Qed.

(** The variable of a descriptor followed by another of the same name is
    not in [widgets]. *)
Lemma overwritten_not_stored (before after : list descriptor) (d : descriptor)
      (k : str) (v : tkvar) :
  (exists d', In d' after /\ name d' = name d) ->
  In (k, v) (build_widgets (before ++ d :: after)) ->
  var_row v <> List.length before.
Proof.
  intros (d' & Hd' & Hname) Hin Hrow.
  destruct (widget_origin _ _ _ Hin) as (b2 & d2 & a2 & E & Hk & Hlast & ->).
  rewrite new_var_row in Hrow. symmetry in Hrow.
  destruct (same_length_prefix _ _ _ _ _ E Hrow) as [_ E'].
  injection E' as -> ->. apply (Hlast d' Hd'). congruence.
Qed.

(** X14.  The input controls on screen are, in order, one per descriptor,
    each reading the variable made for its row.  Every variable of [widgets]
    is read by a control on screen; but the control of a descriptor followed
    by another of the same name stays on screen while its variable is not in
    [widgets]: what is entered there never reaches [run_scrcpy]. *)
Theorem one_input_per_descriptor (options : list descriptor) :
  flat_map input_var (snd (build_form options)) = map snd (numbered 0 options)
  /\ (forall v, In v (map snd (build_widgets options)) ->
                In v (flat_map input_var (snd (build_form options))))
  /\ (forall before d after,
        options = before ++ d :: after ->
        (exists d', In d' after /\ name d' = name d) ->
        In (new_var d (List.length before))
           (flat_map input_var (snd (build_form options)))
        /\ ~ In (new_var d (List.length before)) (map snd (build_widgets options))).
Proof.
  assert (Hinputs : flat_map input_var (snd (build_form options))
                    = map snd (numbered 0 options))
    by (unfold build_form; now rewrite add_row_inputs).
  assert (Hshown : forall before d after,
             options = before ++ d :: after ->
             In (new_var d (List.length before)) (map snd (numbered 0 options))).
  { intros before d after ->. rewrite numbered_app, map_app.
    apply in_or_app. right. now left. }
  split; [exact Hinputs|]. split.
  - intros v Hv. rewrite Hinputs.
    apply in_map_iff in Hv as ([k v'] & <- & Hin).
    destruct (widget_origin _ _ _ Hin) as (b & d & a & E & _ & _ & ->).
    simpl. eapply Hshown. exact E.
  - intros before d after E Hlater. split.
    + rewrite Hinputs. eapply Hshown. exact E.
    + intros Hin. apply in_map_iff in Hin as ([k v] & Hv & Hin).
      simpl in Hv. subst options.
      apply (overwritten_not_stored before after d k v Hlater Hin).
      now rewrite Hv, new_var_row.
Qed.

Lemma one_input_per_descriptor_witness :
  let options := [valued (lit "--a"); flag (lit "--a")] in
  options = [] ++ valued (lit "--a") :: [flag (lit "--a")]
  /\ (exists d', In d' [flag (lit "--a")] /\ name d' = name (valued (lit "--a")))
  /\ In (StringVar 0) (flat_map input_var (snd (build_form options)))
  /\ ~ In (StringVar 0) (map snd (build_widgets options)).
Proof.
  intros options.
  assert (E : options = [] ++ valued (lit "--a") :: [flag (lit "--a")])
    by reflexivity.
  assert (Hlater : exists d', In d' [flag (lit "--a")]
                              /\ name d' = name (valued (lit "--a")))
    by (exists (flag (lit "--a")); split; [left|]; reflexivity).
  split; [exact E|]. split; [exact Hlater|].
  exact (proj2 (proj2 (one_input_per_descriptor options)) _ _ _ E Hlater).
Defined.

(** * More on the command line *)

Lemma run_scrcpy_groups (widgets : dict) (f : form) :
  run_scrcpy widgets f
  = lit "scrcpy" :: flat_map tokens (flat_map (group_of f) widgets).
Proof. unfold run_scrcpy. now rewrite run_scrcpy_tokens. Qed.

Lemma group_of_unset (f : form) (k : str) (v : tkvar) :
  group_of f (k, v) = [] <-> unset f v.
Proof.
  destruct v as [row|row]; unfold group_of, unset; simpl.
  - destruct (checked f row); split; congruence.
  - destruct (Py.strip (typed f row)); split; congruence.
Qed.

(** X15.  The command line is the program name alone exactly when no
    variable of [widgets] is set: every box unchecked, every text empty or
    made of whitespace only. *)
Theorem bare_command_iff_nothing_set (widgets : dict) (f : form) :
  run_scrcpy widgets f = [lit "scrcpy"]
  <-> forall k v, In (k, v) widgets -> unset f v.
Proof.
  rewrite run_scrcpy_groups. split.
  - intros H k v Hin. injection H as H.
    apply group_of_unset with (k := k).
    destruct (group_of f (k, v)) as [|g gs] eqn:E; [reflexivity|].
    apply in_split in Hin as (l1 & l2 & ->).
    rewrite flat_map_app in H. cbn [flat_map] in H.
    rewrite E, flat_map_app in H. apply app_eq_nil in H as [_ H].
    discriminate H.
  - intros H. f_equal.
    induction widgets as [|[k v] widgets IH]; [reflexivity|].
    cbn [flat_map]. rewrite (proj2 (group_of_unset f k v)).
    + apply IH. intros k' v' Hin. apply (H k'). now right.
    + apply (H k). now left.
Qed.

(** X16.  A checked box puts its option name on the command line, and a
    text that is not blank puts its option name there immediately followed
    by the text stripped of surrounding whitespace. *)
Theorem set_options_are_passed (widgets : dict) (f : form) (k : str) (row : nat) :
  (In (k, BooleanVar row) widgets -> checked f row = true ->
   exists pre post, run_scrcpy widgets f = (lit "scrcpy" :: pre) ++ k :: post)
  /\ (In (k, StringVar row) widgets -> Py.strip (typed f row) <> [] ->
      exists pre post,
        run_scrcpy widgets f
        = (lit "scrcpy" :: pre) ++ k :: Py.strip (typed f row) :: post).
Proof.
  split; intros Hin Hset; apply in_split in Hin as (l1 & l2 & ->);
    rewrite run_scrcpy_groups, flat_map_app, flat_map_app;
    exists (flat_map tokens (flat_map (group_of f) l1)),
           (flat_map tokens (flat_map (group_of f) l2));
    cbn [flat_map]; rewrite flat_map_app; unfold group_of at 2; simpl.
  - now rewrite Hset.
  - destruct (Py.strip (typed f row)); [contradiction | reflexivity].
Qed.

Lemma set_options_are_passed_witness :
  let widgets := [(lit "--a", BooleanVar 0); (lit "--b", StringVar 1)] in
  let f := {| checked := fun _ => true; typed := fun _ => lit " 8M " |} in
  In (lit "--b", StringVar 1) widgets
  /\ Py.strip (typed f 1) <> []
  /\ exists pre post,
       run_scrcpy widgets f
       = (lit "scrcpy" :: pre) ++ lit "--b" :: Py.strip (typed f 1) :: post.
Proof.
  intros widgets f.
  assert (Hin : In (lit "--b", StringVar 1) widgets) by (right; left; reflexivity).
  assert (Hset : Py.strip (typed f 1) <> []) by (vm_compute; discriminate).
  split; [exact Hin|]. split; [exact Hset|].
  exact (proj2 (set_options_are_passed widgets f (lit "--b") 1) Hin Hset).
Defined.

Lemma group_of_same_input (f f' : form) (k : str) (v : tkvar) :
  same_input f f' v -> group_of f (k, v) = group_of f' (k, v).
Proof.
  destruct v as [row|row]; unfold same_input, group_of; simpl; now intros ->.
Qed.

Lemma run_scrcpy_same_inputs (widgets : dict) (f f' : form) :
  (forall k v, In (k, v) widgets -> same_input f f' v) ->
  run_scrcpy widgets f = run_scrcpy widgets f'.
Proof.
  intros H. rewrite !run_scrcpy_groups. do 2 f_equal.
  induction widgets as [|[k v] widgets IH]; [reflexivity|].
  cbn [flat_map]. rewrite (group_of_same_input f f' k v).
  - f_equal. apply IH. intros k' v' Hin. apply (H k'). now right.
  - apply (H k). now left.
Qed.

(** X17.  What is entered in the control of a descriptor that is followed
    by another descriptor of the same name has no effect: two fillings of
    the form that differ in the variable of that row only give the same
    command line. *)
Theorem overwritten_input_is_ignored (before after : list descriptor)
        (d : descriptor) (f f' : form) :
  (exists d', In d' after /\ name d' = name d) ->
  (forall row, row <> List.length before ->
               checked f row = checked f' row /\ typed f row = typed f' row) ->
  run_scrcpy (build_widgets (before ++ d :: after)) f
  = run_scrcpy (build_widgets (before ++ d :: after)) f'.
Proof.
  intros Hlater Hsame. apply run_scrcpy_same_inputs. intros k v Hin.
  pose proof (overwritten_not_stored before after d k v Hlater Hin) as Hrow.
  destruct v as [row|row]; simpl in *; now apply Hsame.
Qed.

Lemma overwritten_input_is_ignored_witness :
  let d := flag (lit "--a") in
  let f := {| checked := fun _ => true; typed := fun _ => [] |} in
  let f' := {| checked := fun row => negb (Nat.eqb row 0); typed := fun _ => [] |} in
  (exists d', In d' [flag (lit "--a")] /\ name d' = name d)
  /\ run_scrcpy (build_widgets ([] ++ d :: [flag (lit "--a")])) f
     = run_scrcpy (build_widgets ([] ++ d :: [flag (lit "--a")])) f'.
Proof.
  intros d f f'.
  assert (Hlater : exists d', In d' [flag (lit "--a")] /\ name d' = name d)
    by (exists (flag (lit "--a")); split; [left|]; reflexivity).
  split; [exact Hlater|].
  apply (overwritten_input_is_ignored [] [flag (lit "--a")] d f f' Hlater).
  intros row Hrow. split; [|reflexivity].
  destruct row as [|row]; [now contradiction Hrow | reflexivity].
Defined.

Lemma tokens_of_group (f : form) (item : str * tkvar) :
  flat_map tokens (group_of f item)
  = if is_set f (snd item) then argument f item else [].
Proof.
  destruct item as [k [row|row]]; unfold group_of, is_set, argument; simpl.
  - now destruct (checked f row).
  - now destruct (Py.strip (typed f row)).
Qed.

(** The command line, entry by entry. *)
Lemma run_scrcpy_arguments (widgets : dict) (f : form) :
  run_scrcpy widgets f
  = lit "scrcpy"
    :: flat_map (argument f) (filter (fun item => is_set f (snd item)) widgets).
Proof.
  rewrite run_scrcpy_groups. f_equal.
  induction widgets as [|item widgets IH]; [reflexivity|].
  cbn [flat_map filter]. rewrite flat_map_app, tokens_of_group, IH.
  now destruct (is_set f (snd item)).
Qed.

Lemma filter_keys_NoDup (p : str * tkvar -> bool) (widgets : dict) :
  NoDup (map fst widgets) -> NoDup (map fst (filter p widgets)).
Proof.
  induction widgets as [|item widgets IH]; simpl; intros Hnd; [constructor|].
  inversion Hnd as [|? ? Hnotin Hnd']; subst.
  destruct (p item); simpl; [|now apply IH].
  constructor; [|now apply IH].
  intros Hin. apply Hnotin. apply in_map_iff in Hin as (x & Hx & Hin).
  apply filter_In in Hin as [Hin _]. apply in_map_iff. now exists x.
Qed.

Lemma set_value_trimmed (f : form) (var : tkvar) (value : str) :
  is_set f var = true -> In value (value_tokens f var) ->
  value <> [] /\ trimmed value.
Proof.
  destruct var as [row|row]; simpl; [now intros _ []|].
  pose proof (strip_trimmed (typed f row)) as Ht.
  destruct (Py.strip (typed f row)) as [|c r]; [discriminate|].
  intros _ [<-|[]]. split; [discriminate | exact Ht].
Qed.

(** X18.  The command line is the program name followed, for the entries of
    [widgets] in the order of its keys, the set ones only, by the name of
    the entry and, for a text field, its stripped text; a value on the
    command line is never empty and has no whitespace at its ends. *)
Theorem command_in_widget_order (widgets : dict) (f : form) :
  run_scrcpy widgets f
  = lit "scrcpy"
    :: flat_map (argument f) (filter (fun item => is_set f (snd item)) widgets)
  /\ (forall item value,
        In item widgets -> is_set f (snd item) = true ->
        In value (value_tokens f (snd item)) ->
        value <> [] /\ trimmed value).
Proof.
  split; [apply run_scrcpy_arguments|].
  intros item value _ Hset Hvalue. eapply set_value_trimmed; eassumption.
Qed.

Lemma command_in_widget_order_witness :
  let widgets := [(lit "-n", BooleanVar 0); (lit "--b", StringVar 1);
                  (lit "--c", BooleanVar 2)] in
  let f := {| checked := fun row => Nat.eqb row 2; typed := fun _ => lit " 8M " |} in
  run_scrcpy widgets f = [lit "scrcpy"; lit "--b"; lit "8M"; lit "--c"]
  /\ In (lit "--b", StringVar 1) widgets
  /\ is_set f (StringVar 1) = true
  /\ lit "8M" <> [] /\ trimmed (lit "8M").
Proof.
  intros widgets f.
  assert (Hin : In (lit "--b", StringVar 1) widgets) by (right; left; reflexivity).
  assert (Hset : is_set f (StringVar 1) = true) by reflexivity.
  split; [vm_compute; reflexivity|]. split; [exact Hin|]. split; [exact Hset|].
  exact (proj2 (command_in_widget_order widgets f) (lit "--b", StringVar 1) (lit "8M")
           Hin Hset (or_introl eq_refl)).
Defined.

(** X19.  From the descriptors to the command line: every option passed is
    named after a descriptor, and is passed with exactly one value when the
    last descriptor of that name has [has_value] true, with none when it has
    [has_value] false. *)
Theorem argument_arity (options : list descriptor) (f : form) :
  exists groups,
    run_scrcpy (build_widgets options) f = lit "scrcpy" :: flat_map tokens groups
    /\ Forall (fun g =>
                 exists before d after,
                   options = before ++ d :: after /\ name d = fst g
                   /\ (forall d', In d' after -> name d' <> fst g)
                   /\ List.length (snd g) = (if has_value d then 1 else 0)%nat)
              groups.
Proof.
  exists (flat_map (group_of f) (build_widgets options)).
  split; [apply run_scrcpy_groups|].
  apply Forall_forall. intros g Hg.
  apply in_flat_map in Hg as ([k v] & Hitem & Hg).
  destruct (widget_origin _ _ _ Hitem) as (before & d & after & E & Hk & Hlast & Hv).
  exists before, d, after.
  assert (Hgk : fst g = k) by (now apply group_of_item in Hg as [-> _]).
  rewrite Hgk. repeat split; auto.
  subst v. unfold new_var, group_of in Hg. simpl in Hg.
  destruct (has_value d); simpl in Hg.
  - destruct (Py.strip (typed f (List.length before))); [contradiction|].
    now destruct Hg as [<-|[]].
  - destruct (checked f (List.length before)); [|contradiction].
    now destruct Hg as [<-|[]].
Qed.

(** A word of the command line need not be an option: the text typed in a
    field is passed as it is, whatever it reads like. *)
Example typed_value_reads_like_an_option :
  run_scrcpy [(lit "--a", StringVar 0); (lit "--b", BooleanVar 1)]
    {| checked := fun _ => false; typed := fun _ => lit "--b" |}
  = [lit "scrcpy"; lit "--a"; lit "--b"].
Proof. vm_compute. reflexivity. Qed.

(** C10.  The widgets are kept in a mapping keyed by option name: its keys
    are the option names, each once, and for a name borne by several
    descriptors the variable of the last of them is the one kept, the later
    overwriting the earlier.  The command line is the program name followed,
    for each entry of the mapping whose variable is set, by the name of the
    entry and its value if it is a text field: every option name is passed
    at most once. *)
Theorem widgets_keyed_by_name (options : list descriptor) (f : form) :
  NoDup (map fst (build_widgets options))
  /\ (forall k, In k (map fst (build_widgets options)) <-> In k (map name options))
  /\ (forall before d after,
        options = before ++ d :: after ->
        (forall d', In d' after -> name d' <> name d) ->
        dict_get (build_widgets options) (name d)
        = Some (new_var d (List.length before)))
  /\ run_scrcpy (build_widgets options) f
     = lit "scrcpy"
       :: flat_map (argument f)
            (filter (fun item => is_set f (snd item)) (build_widgets options))
  /\ NoDup (map fst (filter (fun item => is_set f (snd item))
                       (build_widgets options))).
Proof.
  split; [apply build_widgets_NoDup|].
  split; [apply build_widgets_keys|].
  split; [intros before d after -> Hafter; now apply build_widgets_last|].
  split; [apply run_scrcpy_arguments|].
  apply filter_keys_NoDup, build_widgets_NoDup.
Qed.

Lemma widgets_keyed_by_name_witness :
  let options := [flag (lit "--a"); valued (lit "--b"); flag (lit "--a")] in
  options = [flag (lit "--a"); valued (lit "--b")] ++ flag (lit "--a") :: []
  /\ (forall d', In d' [] -> name d' <> name (flag (lit "--a")))
  /\ dict_get (build_widgets options) (lit "--a") = Some (BooleanVar 2).
Proof.
  intros options.
  assert (Hsplit : options
                   = [flag (lit "--a"); valued (lit "--b")] ++ flag (lit "--a") :: [])
    by reflexivity.
  assert (Hlast : forall d', In d' [] -> name d' <> name (flag (lit "--a")))
    by (intros d' []).
  split; [exact Hsplit|]. split; [exact Hlast|].
  exact (proj1 (proj2 (proj2
           (widgets_keyed_by_name options {| checked := fun _ => true;
                                             typed := fun _ => [] |})))
           _ _ _ Hsplit Hlast).
Defined.
